(** * Enshrined relayers: canonical encoding, bitmap codec and signing daemon

    A shallow embedding of the protocol code of the relayer
    ([relayer/src/canonical.ts], [relayer/src/bitmap.ts]) and of the signing
    daemon ([internal/keys], [cmd/daemon/main.go]), with the properties the
    design document states about them.

    Conventions.
    - A JavaScript [number] that holds an integer is a [Z]; the 32-bit
      coercions of the bitwise operators are written out ([JS.ToInt32],
      [JS.ToUint32]). Where the code hands a number to [BigInt], which
      throws for a number that is no integer, the number is a [JS.number].
    - A [Uint8Array], a Node [Buffer] and a Go [[]byte] are a [list Z] whose
      elements lie in [0, 256); stores truncate modulo 256.
    - A string is held by its UTF-8 bytes, one [ascii] per byte: the
      strings are the well-formed ones, which their encoding determines.
    - A JavaScript exception is the [Throw] case of [JS.result]; a Go
      [(value, error)] pair is a [Go.result]. *)

From Stdlib Require Import ZArith List Lia String Ascii.
From stdpp Require Import base option list list_numbers strings gmap sorting pretty.
From Equations Require Import Equations.
Import ListNotations.
Local Open Scope Z_scope.

(** The unfolding lemmas of the two loops are proved without functional
    extensionality, so that every theorem below is axiom-free. *)
Unset Equations With Funext.

(* ===================================================================== *)
(** * Part I: the programs *)
(* ===================================================================== *)

(** ** JavaScript values and built-ins used by the relayer *)
Module JS.

Inductive exn : Type :=
| Error (msg : string)
| RangeError (msg : string).

Inductive result (A : Type) : Type :=
| Ok (a : A)
| Throw (e : exn).
Arguments Ok {A} a.
Arguments Throw {A} e.

#[export] Instance result_ret : MRet result := fun A a => Ok a.
#[export] Instance result_bind : MBind result := fun A B f m =>
  match m with
  | Ok a => f a
  | Throw e => Throw e
  end.

(** A number as [BigInt] tells numbers apart: one that holds an integer,
    or one that does not (NaN, an infinity, a number with a fractional
    part), kept with the text [String] prints for it. The integers are not
    bounded here; a number holds those a double represents. *)
Inductive number : Type :=
| Int (z : Z)
| NotInt (shown : string).

(** [BigInt(x)] for a number [x]: a [RangeError] unless [x] is an
    integer. *)
Definition BigInt (x : number) : result Z :=
  match x with
  | Int z => Ok z
  | NotInt shown =>
      Throw (RangeError ("The number " +:+ shown +:+
                         " cannot be converted to a BigInt because it is not an integer"))
  end.

(** The integer coercions of ECMAScript's bitwise operators. *)
Definition ToUint32 (x : Z) : Z := x mod 4294967296.
Definition ToInt32 (x : Z) : Z := (x + 2147483648) mod 4294967296 - 2147483648.
Definition ToUint8 (x : Z) : Z := x mod 256.

(** [a & b], [a | b], [~a], [a << n], [a >>> n], [a % b]. *)
Definition band (a b : Z) : Z := Z.land (ToInt32 a) (ToInt32 b).
Definition bor (a b : Z) : Z := Z.lor (ToInt32 a) (ToInt32 b).
Definition bnot (a : Z) : Z := Z.lnot (ToInt32 a).
Definition shl (a n : Z) : Z := ToInt32 (Z.shiftl (ToInt32 a) (Z.land (ToUint32 n) 31)).
Definition ushr (a n : Z) : Z := Z.shiftr (ToUint32 a) (Z.land (ToUint32 n) 31).
Definition rem (a b : Z) : Z := Z.rem a b.

(** [Math.floor(a / b)] and [Math.ceil(a / b)] on integers, [0 < b]. *)
Definition floor_div (a b : Z) : Z := a / b.
Definition ceil_div (a b : Z) : Z := - ((- a) / b).

(** [new Uint8Array(n)]: [n] zero bytes; a negative length is a
    [RangeError]. A length beyond what the engine allocates, which throws
    as well, is not among the arrays held as lists. *)
Definition new_Uint8Array (n : Z) : result (list Z) :=
  if decide (n < 0) then Throw (RangeError "Invalid typed array length")
  else Ok (replicate (Z.to_nat n) 0).

(** [arr[i]] read as the operand of a bitwise operator: the element when
    [i] is a valid index, [undefined] otherwise, which [ToInt32] takes to
    [0]. *)
Definition get (arr : list Z) (i : Z) : Z :=
  if decide (0 <= i) then default 0 (arr !! Z.to_nat i) else 0.

(** [arr[i] = v] on a [Uint8Array]: stores [v] modulo 256; a store outside
    the array does nothing. *)
Definition set (arr : list Z) (i : Z) (v : Z) : list Z :=
  if decide (0 <= i) then <[Z.to_nat i := ToUint8 v]> arr else arr.

(** [target.set(source, offset)]: copies [source] into [target]; a source
    that does not fit is a [RangeError]. *)
Definition TypedArray_set (target source : list Z) (offset : nat) : result (list Z) :=
  if decide (offset + length source <= length target)%nat
  then Ok (take offset target ++ source ++ drop (offset + length source) target)
  else Throw (RangeError "offset is out of bounds").

(** [new TextEncoder().encode(s)]: the UTF-8 bytes of [s], for a
    well-formed [s]. A string with an unpaired surrogate, which the encoder
    writes as U+FFFD, is not among the strings held by their bytes. *)
Definition TextEncoder_encode (s : string) : list Z :=
  (fun c => Z.of_N (N_of_ascii c)) <$> list_ascii_of_string s.

(** [s.split(sep)] for a one-character separator. [cur] is the part being
    read, in reverse. *)
Fixpoint split_go (sep : ascii) (cur : list ascii) (s : list ascii) : list string :=
  match s with
  | [] => [string_of_list_ascii (rev cur)]
  | c :: s' =>
      if decide (c = sep)
      then string_of_list_ascii (rev cur) :: split_go sep [] s'
      else split_go sep (c :: cur) s'
  end.
Definition split (s : string) (sep : ascii) : list string :=
  split_go sep [] (list_ascii_of_string s).

(** [Buffer.compare(a, b)]: -1, 0 or 1 by unsigned byte-lexicographic
    order, a proper prefix first. *)
Fixpoint Buffer_compare (a b : list Z) : Z :=
  match a, b with
  | [], [] => 0
  | [], _ :: _ => -1
  | _ :: _, [] => 1
  | x :: a', y :: b' =>
      if decide (x < y) then -1
      else if decide (y < x) then 1
      else Buffer_compare a' b'
  end.

(** [arr.sort(cmp)]. The sort is stable (ECMAScript 2019, 23.1.3.30): an
    element moves before another only when the comparator returns a
    positive number for the pair in their current order. The order of the
    comparator calls is left to the engine; insertion from the right is
    taken here, and [stable_sorted_unique] below shows that the choice does
    not change the array returned. An exception of the comparator aborts the
    sort. *)
Section sort.
Context {A : Type} (cmp : A → A → result Z).

Fixpoint sort_insert (x : A) (sorted : list A) : result (list A) :=
  match sorted with
  | [] => Ok [x]
  | y :: rest =>
      c ← cmp x y;
      if decide (c <= 0) then Ok (x :: y :: rest)
      else rest' ← sort_insert x rest; Ok (y :: rest')
  end.

Fixpoint Array_sort (arr : list A) : result (list A) :=
  match arr with
  | [] => Ok []
  | x :: rest => sorted ← Array_sort rest; sort_insert x sorted
  end.
End sort.

(** [arr.findIndex(p)]: the index of the first element that satisfies [p],
    [-1] when there is none. *)
Fixpoint findIndex_from {A} (p : A → bool) (arr : list A) (i : Z) : Z :=
  match arr with
  | [] => -1
  | x :: rest => if p x then i else findIndex_from p rest (i + 1)
  end.
Definition Array_findIndex {A} (p : A → bool) (arr : list A) : Z :=
  findIndex_from p arr 0.

End JS.

(** ** SHA-256 (FIPS 180-4), the hash behind [createHash('sha256')] *)
Module SHA256.

Definition mask32 : Z := 0xFFFFFFFF.
Definition add32 (a b : Z) : Z := Z.land (a + b) mask32.
Definition rotr (n x : Z) : Z :=
  Z.land (Z.lor (Z.shiftr x n) (Z.shiftl x (32 - n))) mask32.
Definition shr (n x : Z) : Z := Z.shiftr x n.
Definition not32 (x : Z) : Z := Z.lxor x mask32.

Definition Ch (x y z : Z) : Z := Z.lxor (Z.land x y) (Z.land (not32 x) z).
Definition Maj (x y z : Z) : Z :=
  Z.lxor (Z.lxor (Z.land x y) (Z.land x z)) (Z.land y z).
Definition Sigma0 (x : Z) : Z := Z.lxor (Z.lxor (rotr 2 x) (rotr 13 x)) (rotr 22 x).
Definition Sigma1 (x : Z) : Z := Z.lxor (Z.lxor (rotr 6 x) (rotr 11 x)) (rotr 25 x).
Definition sigma0 (x : Z) : Z := Z.lxor (Z.lxor (rotr 7 x) (rotr 18 x)) (shr 3 x).
Definition sigma1 (x : Z) : Z := Z.lxor (Z.lxor (rotr 17 x) (rotr 19 x)) (shr 10 x).

(** The constants of the standard are fractional parts of roots of the
    first primes. *)
Definition is_prime (n : Z) : bool :=
  forallb (λ d, negb (n mod d =? 0)) (seqZ 2 (n - 2)).

Definition primes (count : nat) : list Z :=
  take count (filter (λ n, is_prime n = true) (seqZ 2 400)).

(** The integer cube root, found bit by bit from the top. *)
Definition cube_root (n : Z) : Z :=
  fold_left (λ r b, if decide ((r + 2 ^ b) ^ 3 <= n) then r + 2 ^ b else r)
            (reverse (seqZ 0 40)) 0.

(** The first 32 bits of the fractional part of a cube root and of a square
    root. *)
Definition frac_cube_root (p : Z) : Z := cube_root (p * 2 ^ 96) mod 2 ^ 32.
Definition frac_square_root (p : Z) : Z := Z.sqrt (p * 2 ^ 64) mod 2 ^ 32.

(** The round constants: cube roots of the first 64 primes. *)
Definition K : list Z := Eval vm_compute in frac_cube_root <$> primes 64.

Record state : Type := mkState {
  ha : Z; hb : Z; hc : Z; hd : Z; he : Z; hf : Z; hg : Z; hh : Z }.

(** The initial hash value: square roots of the first 8 primes. *)
Definition H0 : state :=
  Eval vm_compute in
    let h := frac_square_root <$> primes 8 in
    mkState (nth 0 h 0) (nth 1 h 0) (nth 2 h 0) (nth 3 h 0)
            (nth 4 h 0) (nth 5 h 0) (nth 6 h 0) (nth 7 h 0).

(** One round. [w] is the window W[t], ..., W[t+15] of the message
    schedule. *)
Definition round (k : Z) (w : list Z) (s : state) : state :=
  let t1 :=
    add32 (add32 (add32 (add32 (hh s) (Sigma1 (he s))) (Ch (he s) (hf s) (hg s))) k)
          (nth 0 w 0) in
  let t2 := add32 (Sigma0 (ha s)) (Maj (ha s) (hb s) (hc s)) in
  mkState (add32 t1 t2) (ha s) (hb s) (hc s) (add32 (hd s) t1) (he s) (hf s) (hg s).

Definition next_w (w : list Z) : Z :=
  add32 (add32 (add32 (sigma1 (nth 14 w 0)) (nth 9 w 0)) (sigma0 (nth 1 w 0)))
        (nth 0 w 0).

Fixpoint rounds (ks : list Z) (w : list Z) (s : state) : state :=
  match ks with
  | [] => s
  | k :: ks' => rounds ks' (tail w ++ [next_w w]) (round k w s)
  end.

Definition be32 (b : list Z) : Z :=
  Z.lor (Z.lor (Z.lor (Z.shiftl (nth 0 b 0) 24) (Z.shiftl (nth 1 b 0) 16))
               (Z.shiftl (nth 2 b 0) 8)) (nth 3 b 0).

Fixpoint words (n : nat) (b : list Z) : list Z :=
  match n with
  | O => []
  | S n' => be32 b :: words n' (drop 4 b)
  end.

Definition compress (s : state) (block : list Z) : state :=
  let r := rounds K (words 16 block) s in
  mkState (add32 (ha s) (ha r)) (add32 (hb s) (hb r)) (add32 (hc s) (hc r))
          (add32 (hd s) (hd r)) (add32 (he s) (he r)) (add32 (hf s) (hf r))
          (add32 (hg s) (hg r)) (add32 (hh s) (hh r)).

Fixpoint blocks (n : nat) (s : state) (b : list Z) : state :=
  match n with
  | O => s
  | S n' => blocks n' (compress s (take 64 b)) (drop 64 b)
  end.

(** The [width] low bytes of [x], most significant first. *)
Definition be_bytes (width : nat) (x : Z) : list Z :=
  (fun i => Z.land (Z.shiftr x (8 * Z.of_nat i)) 0xFF) <$> rev (seq 0 width).

Definition pad (m : list Z) : list Z :=
  let len := Z.of_nat (length m) in
  m ++ [0x80] ++ replicate (Z.to_nat ((55 - len) mod 64)) 0 ++ be_bytes 8 (8 * len).

Definition out (s : state) : list Z :=
  be_bytes 4 (ha s) ++ be_bytes 4 (hb s) ++ be_bytes 4 (hc s) ++ be_bytes 4 (hd s) ++
  be_bytes 4 (he s) ++ be_bytes 4 (hf s) ++ be_bytes 4 (hg s) ++ be_bytes 4 (hh s).

Definition digest (m : list Z) : list Z :=
  let p := pad m in out (blocks (length p / 64) H0 p).
#[global] Arguments digest : simpl never.

End SHA256.

(** ** relayer/src/canonical.ts *)
Module Canonical.
Import JS.

Record HyperlaneMessage : Type := {
  originChainId : string;
  destChainId : string;
  nonce : number;
  senderModule : string;
  recipientModule : string;
  body : list Z;
  valsetId : number }.

Record ValsetSigner : Type := {
  operator : string;
  attestationPubkey : list Z;
  power : number }.

(** [value >>>= 7] strictly shortens a value the loop of [encodeUvarint]
    accepts; this is what makes the loop terminate. *)
Lemma ushr7_shortens (value : Z) :
  0x80 <= value →
  (Z.to_nat (Z.log2 (ushr value 7)) < Z.to_nat (Z.log2 value))%nat.
Proof.
  intros Hv. unfold ushr, ToUint32.
  change (Z.land (7 mod 4294967296) 31) with 7.
  pose proof (Z.mod_pos_bound value 4294967296 ltac:(lia)) as Hm.
  pose proof (Z.mod_le value 4294967296 ltac:(lia) ltac:(lia)) as Hle.
  assert (Z.log2 (Z.shiftr (value mod 4294967296) 7) <= Z.log2 (Z.shiftr value 7)).
  { apply Z.log2_le_mono. rewrite !Z.shiftr_div_pow2 by lia.
    apply Z.div_le_mono; lia. }
  assert (Z.log2 (Z.shiftr value 7) = Z.log2 value - 7).
  { rewrite Z.log2_shiftr by lia.
    pose proof (Z.log2_le_mono 128 value Hv) as H7.
    change (Z.log2 128) with 7 in H7. lia. }
  pose proof (Z.log2_nonneg (Z.shiftr (value mod 4294967296) 7)). lia.
Qed.

(** The [while] loop of [encodeUvarint], on the pair of the two variables
    it updates. *)
Equations encodeUvarint_while (value : Z) (result : list Z) : Z * list Z
  by wf (Z.to_nat (Z.log2 value)) lt :=
  encodeUvarint_while value result with decide (0x80 <= value) := {
    | left _ =>
        encodeUvarint_while (ushr value 7) (result ++ [bor (band value 0xFF) 0x80]);
    | right _ => (value, result) }.
Next Obligation. by apply ushr7_shortens. Qed.

Definition encodeUvarint (value : Z) : list Z :=
  let '(value, result) := encodeUvarint_while value [] in
  ToUint8 <$> (result ++ [band value 0xFF]).

Definition encodeWithLength (data : list Z) : result (list Z) :=
  let lengthBytes := encodeUvarint (Z.of_nat (length data)) in
  result ← new_Uint8Array (Z.of_nat (length lengthBytes + length data));
  result ← TypedArray_set result lengthBytes 0;
  TypedArray_set result data (length lengthBytes).

Definition encodeStringWithLength (s : string) : result (list Z) :=
  encodeWithLength (TextEncoder_encode s).

(** [new Uint8Array(8)] written through
    [new DataView(b.buffer).setBigUint64(0, BigInt(n), false)]: [BigInt]
    throws when [n] is no integer; otherwise the buffer holds the
    big-endian bytes of [n] modulo 2^64. *)
Definition uint64_bytes (n : number) : result (list Z) :=
  bytes ← new_Uint8Array 8;
  value ← BigInt n;
  TypedArray_set bytes (SHA256.be_bytes 8 (value mod 2 ^ 64)) 0.

(** The loop [for (const arr of data) { result.set(arr, offset); offset +=
    arr.length; }]. *)
Fixpoint copy_all (data : list (list Z)) (result : list Z) (offset : nat)
  : JS.result (list Z) :=
  match data with
  | [] => Ok result
  | arr :: data' =>
      result ← TypedArray_set result arr offset;
      copy_all data' result (offset + length arr)
  end.

(** The "concatenate all data" block shared by the two hash functions. *)
Definition concat_data (data : list (list Z)) : result (list Z) :=
  let totalLength := fold_left (λ sum arr, sum + length arr)%nat data 0%nat in
  result ← new_Uint8Array (Z.of_nat totalLength);
  copy_all data result 0.

(** [createHash('sha256').update(data).digest()]. *)
Definition sha256 (data : list Z) : list Z := SHA256.digest data.

Definition computeMessageDigest (msg : HyperlaneMessage) : result (list Z) :=
  f1 ← encodeStringWithLength (originChainId msg);
  f2 ← encodeStringWithLength (destChainId msg);
  nonceBytes ← uint64_bytes (nonce msg);
  f3 ← encodeWithLength nonceBytes;
  f4 ← encodeStringWithLength (senderModule msg);
  f5 ← encodeStringWithLength (recipientModule msg);
  f6 ← encodeWithLength (body msg);
  valsetBytes ← uint64_bytes (valsetId msg);
  f7 ← encodeWithLength valsetBytes;
  result ← concat_data [f1; f2; f3; f4; f5; f6; f7];
  Ok (sha256 result).

Definition getAddressBytes (bech32Addr : string) : result (list Z) :=
  let parts := split bech32Addr "1" in
  if decide (length parts ≠ 2%nat)
  then Throw (Error ("Invalid bech32 address: " +:+ bech32Addr))
  else
    let data := default EmptyString (parts !! 1%nat) in
    bytes ← new_Uint8Array 20;
    let hashBytes := sha256 (TextEncoder_encode data) in
    TypedArray_set bytes (take 20 hashBytes) 0.

(** The comparator of both sorts. *)
Definition compareSigners (a b : ValsetSigner) : result Z :=
  addrA ← getAddressBytes (operator a);
  addrB ← getAddressBytes (operator b);
  Ok (Buffer_compare addrA addrB).

Definition getSortedSignerOrder (signers : list ValsetSigner)
  : result (list ValsetSigner) :=
  Array_sort compareSigners signers.

(** The loop over [sortedSigners] that pushes three chunks per signer. *)
Fixpoint push_signers (sortedSigners : list ValsetSigner) (data : list (list Z))
  : result (list (list Z)) :=
  match sortedSigners with
  | [] => Ok data
  | signer :: rest =>
      addrBytes ← getAddressBytes (operator signer);
      c1 ← encodeWithLength addrBytes;
      c2 ← encodeWithLength (attestationPubkey signer);
      powerBytes ← uint64_bytes (power signer);
      c3 ← encodeWithLength powerBytes;
      push_signers rest (data ++ [c1; c2; c3])
  end.

Definition computeValsetHash (signers : list ValsetSigner) : result (list Z) :=
  sortedSigners ← Array_sort compareSigners signers;
  data ← push_signers sortedSigners [];
  result ← concat_data data;
  Ok (sha256 result).

Definition formatRoute (origin dest recipientModule : string) : string :=
  origin +:+ "|" +:+ dest +:+ "|" +:+ recipientModule.

End Canonical.

(** ** relayer/src/bitmap.ts *)
Module Bitmap.
Import JS.

(** The body of the loop of [createBitmap]. *)
Definition createBitmap_step (totalValidators : Z) (bitmap : list Z) (idx : Z)
  : list Z :=
  if decide (0 <= idx ∧ idx < totalValidators) then
    let byteIdx := floor_div idx 8 in
    let bitPos := rem idx 8 in
    set bitmap byteIdx (bor (get bitmap byteIdx) (shl 1 bitPos))
  else bitmap.

Definition createBitmap (validatorIndices : list Z) (totalValidators : Z)
  : result (list Z) :=
  let bitmapSize := ceil_div totalValidators 8 in
  bitmap ← new_Uint8Array bitmapSize;
  Ok (fold_left (createBitmap_step totalValidators) validatorIndices bitmap).

(** The inner loop of [parseBitmap], [n] iterations before [bitPos]
    reaches 8; the first branch is the [break]. *)
Fixpoint parseBitmap_bits (n : nat) (bitPos : Z)
    (bitmapByte byteIdx totalValidators : Z) (indices : list Z) : list Z :=
  match n with
  | O => indices
  | S n' =>
      let validatorIdx := byteIdx * 8 + bitPos in
      if decide (totalValidators <= validatorIdx) then indices
      else
        parseBitmap_bits n' (bitPos + 1) bitmapByte byteIdx totalValidators
          (if decide (band bitmapByte (shl 1 bitPos) ≠ 0)
           then indices ++ [validatorIdx] else indices)
  end.

(** The outer loop, [n] iterations before [byteIdx] reaches
    [bitmap.length]. *)
Fixpoint parseBitmap_bytes (n : nat) (byteIdx : Z)
    (bitmap : list Z) (totalValidators : Z) (indices : list Z) : list Z :=
  match n with
  | O => indices
  | S n' =>
      let bitmapByte := get bitmap byteIdx in
      parseBitmap_bytes n' (byteIdx + 1) bitmap totalValidators
        (parseBitmap_bits 8 0 bitmapByte byteIdx totalValidators indices)
  end.

Definition parseBitmap (bitmap : list Z) (totalValidators : Z) : list Z :=
  parseBitmap_bytes (length bitmap) 0 bitmap totalValidators [].

Definition isBitSet (bitmap : list Z) (validatorIndex : Z) : bool :=
  let byteIdx := floor_div validatorIndex 8 in
  let bitPos := rem validatorIndex 8 in
  if decide (Z.of_nat (length bitmap) <= byteIdx) then false
  else bool_decide (band (get bitmap byteIdx) (shl 1 bitPos) ≠ 0).

(** [setBit] and [clearBit] update the array in place; the array after the
    call is returned. *)
Definition setBit (bitmap : list Z) (validatorIndex : Z) : list Z :=
  let byteIdx := floor_div validatorIndex 8 in
  let bitPos := rem validatorIndex 8 in
  if decide (byteIdx < Z.of_nat (length bitmap))
  then set bitmap byteIdx (bor (get bitmap byteIdx) (shl 1 bitPos))
  else bitmap.

Definition clearBit (bitmap : list Z) (validatorIndex : Z) : list Z :=
  let byteIdx := floor_div validatorIndex 8 in
  let bitPos := rem validatorIndex 8 in
  if decide (byteIdx < Z.of_nat (length bitmap))
  then set bitmap byteIdx (band (get bitmap byteIdx) (bnot (shl 1 bitPos)))
  else bitmap.

End Bitmap.

(** ** relayer/src/relayer.ts *)
Module Relayer.
Import JS Canonical.

Record ValidatorSignature := {
  operatorAddress : string;
  signature : string;
}.

(** The [proof] field of the deliver message. *)
Record DeliverProof := {
  bitmap : list Z;
  signatures : list (list Z);
}.

Section with_base64.
(** [Buffer.from(s, 'base64')] as bytes. *)
Context (Buffer_from_base64 : string → list Z).

(** The position of the signature's operator in the sorted order. *)
Definition signer_index (sortedSigners : list ValsetSigner)
    (sig : ValidatorSignature) : Z :=
  Array_findIndex (λ s, bool_decide (operator s = operatorAddress sig)) sortedSigners.

(** The body of the loop over [signatures] in [submitToDestination]; the
    state is [validatorIndices] and [signatureBytes]. *)
Definition proof_step (sortedSigners : list ValsetSigner)
    (acc : list Z * list (list Z)) (sig : ValidatorSignature)
  : list Z * list (list Z) :=
  let index := signer_index sortedSigners sig in
  if decide (0 <= index)
  then (acc.1 ++ [index], acc.2 ++ [Buffer_from_base64 (signature sig)])
  else acc.

(** [submitToDestination] up to the proof it puts in the deliver message:
    the sorted order, the loop, the bitmap. *)
Definition submitToDestination_proof (signatures : list ValidatorSignature)
    (signers : list ValsetSigner) : result DeliverProof :=
  sortedSigners ← getSortedSignerOrder signers;
  let acc := fold_left (proof_step sortedSigners) signatures ([], []) in
  bitmap ← Bitmap.createBitmap acc.1 (Z.of_nat (length sortedSigners));
  Ok {| bitmap := bitmap; signatures := acc.2 |}.

End with_base64.

End Relayer.

(** ** Go values and library functions used by the signing daemon *)
Module Go.

(** A [(value, error)] return: [Err] carries the error's message. *)
Inductive result (A : Type) : Type :=
| Val (a : A)
| Err (msg : string).
Arguments Val {A} a.
Arguments Err {A} msg.

Definition fromHexChar (c : ascii) : option Z :=
  let n := Z.of_N (N_of_ascii c) in
  if decide (48 <= n <= 57) then Some (n - 48)
  else if decide (97 <= n <= 102) then Some (n - 97 + 10)
  else if decide (65 <= n <= 70) then Some (n - 65 + 10)
  else None.

(** [hex.Decode]: pairs of hexadecimal digits, either case; a character
    that is no digit, or an odd length, is an error. *)
Fixpoint hex_Decode (src : list ascii) : result (list Z) :=
  match src with
  | [] => Val []
  | [p] =>
      match fromHexChar p with
      | None => Err "encoding/hex: invalid byte"
      | Some _ => Err "encoding/hex: odd length hex string"
      end
  | p :: q :: rest =>
      match fromHexChar p, fromHexChar q with
      | Some a, Some b =>
          match hex_Decode rest with
          | Val bytes => Val ((a * 16 + b) :: bytes)
          | Err e => Err e
          end
      | _, _ => Err "encoding/hex: invalid byte"
      end
  end.

Definition hex_DecodeString (s : string) : result (list Z) :=
  hex_Decode (list_ascii_of_string s).

(** [hex.Encode]: two digits of [hextable] per byte, the high half
    first. *)
Definition hextable : list ascii := list_ascii_of_string "0123456789abcdef".
Definition hex_digit (n : Z) : ascii :=
  default "0"%char (hextable !! Z.to_nat n).
Fixpoint hex_Encode (src : list Z) : list ascii :=
  match src with
  | [] => []
  | v :: rest =>
      hex_digit (Z.shiftr v 4) :: hex_digit (Z.land v 15) :: hex_Encode rest
  end.
Definition hex_EncodeToString (src : list Z) : string :=
  string_of_list_ascii (hex_Encode src).

End Go.

(** ** signing-daemon/internal/keys *)
Module Keys.
Import Go.

Record KeyStore : Type := { Keys : gmap string string }.

Section with_crypto.
(** go-ethereum's [crypto.ToECDSA] and [crypto.Sign], and the key type
    they share. *)
Context {PrivateKey : Type}.
Context (crypto_ToECDSA : list Z → result PrivateKey).
Context (crypto_Sign : list Z → PrivateKey → result (list Z)).

Definition GetPrivateKey (ks : KeyStore) (operatorAddr : string)
  : result PrivateKey :=
  match Keys ks !! operatorAddr with
  | None => Err ("private key not found for operator: " +:+ operatorAddr)
  | Some privateKeyHex =>
      match hex_DecodeString privateKeyHex with
      | Err e => Err ("invalid private key hex: " +:+ e)
      | Val privateKeyBytes =>
          match crypto_ToECDSA privateKeyBytes with
          | Err e => Err ("failed to parse private key: " +:+ e)
          | Val privateKey => Val privateKey
          end
      end
  end.

Definition SignDigest (privateKey : PrivateKey) (digest : list Z)
  : result (list Z) :=
  if decide (length digest ≠ 32%nat)
  then Err ("digest must be exactly 32 bytes, got " +:+ pretty (length digest))
  else
    match crypto_Sign digest privateKey with
    | Err e => Err ("failed to sign digest: " +:+ e)
    | Val signature => Val signature
    end.
End with_crypto.

(** [AddKey] updates the store in place: the store after the call and the
    error returned, [None] for [nil]. *)
Definition AddKey (ks : KeyStore) (operatorAddr privateKeyHex : string)
  : KeyStore * option string :=
  match hex_DecodeString privateKeyHex with
  | Err e => (ks, Some ("invalid private key hex: " +:+ e))
  | Val _ => ({| Keys := <[operatorAddr := privateKeyHex]> (Keys ks) |}, None)
  end.

Section with_conversions.
(** go-ethereum's [crypto.FromECDSA] and [crypto.CompressPubkey]. *)
Context {PrivateKey PublicKey : Type}.
Context (crypto_FromECDSA : PrivateKey → list Z).
Context (crypto_CompressPubkey : PublicKey → list Z).

Definition PrivateKeyToHex (privateKey : PrivateKey) : string :=
  hex_EncodeToString (crypto_FromECDSA privateKey).

Definition PublicKeyToBytes (publicKey : PublicKey) : list Z :=
  crypto_CompressPubkey publicKey.
End with_conversions.

End Keys.

(** ** signing-daemon/cmd/daemon/main.go *)
Module Daemon.
Import Go Keys.

Record SignRequest : Type := { OperatorBech32 : string; DigestHex : string }.
Record SignResponse : Type := { Signature : string; Error : string }.

(** What the handler reads of the HTTP request: the method, and the body as
    [json.NewDecoder(r.Body).Decode(&req)] gives it, [None] when the
    decoder returns an error. *)
Record Request : Type := { Method : string; Body : option SignRequest }.

(** What the handler writes: [http.Error] sends a plain-text message with a
    status; the other replies are a JSON [SignResponse] with a status. *)
Inductive Reply : Type :=
| PlainText (statusCode : nat) (text : string)
| Json (statusCode : nat) (response : SignResponse).

Record Server : Type := { keyStore : KeyStore; port : string }.

(** A handler's effects: its reply and the lines it logs. *)
Definition sendErrorResponse (statusCode : nat) (message : string)
  : Reply * list string :=
  (Json statusCode {| Signature := ""; Error := message |},
   ["Error: " +:+ message]).

Section with_crypto.
Context {PrivateKey : Type}.
Context (crypto_ToECDSA : list Z → result PrivateKey).
Context (crypto_Sign : list Z → PrivateKey → result (list Z)).
(** [base64.StdEncoding.EncodeToString]. *)
Context (base64_EncodeToString : list Z → string).

Definition handleSign (s : Server) (r : Request) : Reply * list string :=
  if decide (Method r ≠ "POST") then (PlainText 405 "Method not allowed", [])
  else
    match Body r with
    | None => sendErrorResponse 400 "Invalid JSON request"
    | Some req =>
        if decide (OperatorBech32 req = "")
        then sendErrorResponse 400 "operatorBech32 is required"
        else if decide (DigestHex req = "")
        then sendErrorResponse 400 "digestHex is required"
        else
          match hex_DecodeString (DigestHex req) with
          | Err _ => sendErrorResponse 400 "Invalid digestHex format"
          | Val digest =>
              if decide (length digest ≠ 32%nat)
              then sendErrorResponse 400 "digest must be exactly 32 bytes"
              else
                match GetPrivateKey crypto_ToECDSA (keyStore s) (OperatorBech32 req) with
                | Err _ =>
                    sendErrorResponse 404
                      ("Private key not found for operator: " +:+ OperatorBech32 req)
                | Val privateKey =>
                    match SignDigest crypto_Sign privateKey digest with
                    | Err e =>
                        sendErrorResponse 500 ("Failed to sign digest: " +:+ e)
                    | Val signature =>
                        (Json 200 {| Signature := base64_EncodeToString signature;
                                     Error := "" |},
                         ["Signed digest for operator " +:+ OperatorBech32 req])
                    end
                end
          end
    end.
End with_crypto.

(** What [handlePubKeys] writes: the plain-text error of [http.Error], or
    the map under [publicKeys]. *)
Inductive PubKeysReply : Type :=
| PubKeysError (statusCode : nat) (text : string)
| PubKeysJson (publicKeys : gmap string string).

Section with_keys.
Context {PrivateKey PublicKey : Type}.
Context (crypto_ToECDSA : list Z → result PrivateKey).
(** The field [privateKey.PublicKey]. *)
Context (PublicKey_of : PrivateKey → PublicKey).
Context (crypto_CompressPubkey : PublicKey → list Z).

(** The body of the loop over the operators of the store. *)
Definition handlePubKeys_step (s : Server) (operatorAddr : string)
    (pubKeys : gmap string string) : gmap string string :=
  match GetPrivateKey crypto_ToECDSA (keyStore s) operatorAddr with
  | Err _ => pubKeys
  | Val privateKey =>
      let pubKeyBytes :=
        PublicKeyToBytes crypto_CompressPubkey (PublicKey_of privateKey) in
      <[operatorAddr := hex_EncodeToString pubKeyBytes]> pubKeys
  end.

Definition handlePubKeys (s : Server) (method : string) : PubKeysReply :=
  if decide (method ≠ "GET") then PubKeysError 405 "Method not allowed"
  else
    PubKeysJson
      (map_fold (λ operatorAddr _ pubKeys, handlePubKeys_step s operatorAddr pubKeys)
                ∅ (Keys (keyStore s))).
End with_keys.

End Daemon.

(* ===================================================================== *)
(** * Part II: the design document's notions *)
(* ===================================================================== *)

(** The encodings and orders the design document names, written from its
    words; the theorems of Part III compare the programs with them. *)
Module Spec.

(** A 7-bit group shortens the number. *)
Lemma group_shortens (n : Z) :
  ¬ n < 128 → (Z.to_nat (Z.log2 (n / 128)) < Z.to_nat (Z.log2 n))%nat.
Proof.
  intros Hn. change 128 with (2 ^ 7). rewrite <- Z.shiftr_div_pow2 by lia.
  rewrite Z.log2_shiftr by lia.
  pose proof (Z.log2_le_mono 128 n ltac:(lia)) as H7.
  change (Z.log2 128) with 7 in H7. lia.
Qed.

(** The unsigned variable-length integer: 7 payload bits per byte, least
    significant group first, the high bit set on every byte but the
    last. *)
Equations uvarint (n : Z) : list Z by wf (Z.to_nat (Z.log2 n)) lt :=
  uvarint n with decide (n < 128) := {
    | left _ => [n];
    | right _ => (n mod 128 + 128) :: uvarint (n / 128) }.
Next Obligation. by apply group_shortens. Qed.

(** "Length prefix then payload". *)
Definition length_prefixed (payload : list Z) : list Z :=
  uvarint (Z.of_nat (length payload)) ++ payload.

(** The eight bytes of a 64-bit unsigned integer, most significant
    first. *)
Definition u64_be (n : Z) : list Z :=
  [ n / 2 ^ 56 mod 256; n / 2 ^ 48 mod 256; n / 2 ^ 40 mod 256; n / 2 ^ 32 mod 256;
    n / 2 ^ 24 mod 256; n / 2 ^ 16 mod 256; n / 2 ^ 8 mod 256; n mod 256 ].

(** The number a big-endian byte string denotes. *)
Definition be_value (bytes : list Z) : Z :=
  fold_left (λ acc b, acc * 256 + b) bytes 0.

(** The number a variable-length integer denotes. *)
Definition uvarint_value (bytes : list Z) : Z :=
  foldr (λ b acc, b mod 128 + 128 * acc) 0 bytes.

(** A 64-bit unsigned integer as a field: the length prefix, one byte of
    value 8, then the eight bytes. *)
Definition u64_field (n : Z) : list Z := 8 :: u64_be n.

(** The numbers that hold an integer, the integer such a number holds, and
    the numbers that hold a 64-bit unsigned integer. *)
Definition is_integer (x : JS.number) : Prop := ∃ z, x = JS.Int z.
Definition integer_of (x : JS.number) : Z :=
  match x with
  | JS.Int z => z
  | JS.NotInt _ => 0
  end.
Definition u64 (x : JS.number) : Prop := ∃ n, x = JS.Int n ∧ 0 <= n < 2 ^ 64.

(** The seven fields of a message in their fixed order. *)
Definition canonical_encoding (msg : Canonical.HyperlaneMessage) : list Z :=
  length_prefixed (JS.TextEncoder_encode (Canonical.originChainId msg)) ++
  length_prefixed (JS.TextEncoder_encode (Canonical.destChainId msg)) ++
  u64_field (integer_of (Canonical.nonce msg)) ++
  length_prefixed (JS.TextEncoder_encode (Canonical.senderModule msg)) ++
  length_prefixed (JS.TextEncoder_encode (Canonical.recipientModule msg)) ++
  length_prefixed (Canonical.body msg) ++
  u64_field (integer_of (Canonical.valsetId msg)).

(** [sorted(S)]: the indices in ascending order. *)
Definition sorted (S : list Z) : list Z := merge_sort Z.le S.

(** Bit [i] of the logical bit-vector a bitmap holds: byte [i / 8], position
    [i mod 8] counted from the least significant bit. *)
Definition bit (bitmap : list Z) (i : Z) : bool :=
  Z.testbit (default 0 (bitmap !! Z.to_nat (i / 8))) (i mod 8).

(** The members a bitmap names among [totalMembers]: the indices whose bit
    is set, in ascending order. *)
Definition members (bitmap : list Z) (totalMembers : Z) : list Z :=
  filter (λ i, bit bitmap i = true)
         (seqZ 0 (Z.min totalMembers (8 * Z.of_nat (length bitmap)))).

(** How often a character occurs in a string. *)
Definition occurrences (c : ascii) (s : string) : nat :=
  length (filter (λ x, x = c) (list_ascii_of_string s)).

(** Byte-lexicographic order on sort keys. *)
Definition key_le (a b : list Z) : Prop := JS.Buffer_compare a b <= 0.

(** An operation rejects its input when it throws. *)
Definition rejects {A : Type} (r : JS.result A) : Prop := ∃ e, r = JS.Throw e.

(** The normalizer accepts an account identifier when it returns bytes for
    it. *)
Definition accepted (operatorId : string) : Prop :=
  ∃ key, Canonical.getAddressBytes operatorId = JS.Ok key.


(** A byte string whose length a 32-bit length prefix can carry. *)
Definition short (payload : list Z) : Prop :=
  Z.of_nat (length payload) < 2 ^ 32.

(** The messages of the data model: two 64-bit unsigned integers, and
    strings and a body of fewer than 2^32 bytes. *)
Record message_ok (msg : Canonical.HyperlaneMessage) : Prop := {
  origin_short : short (JS.TextEncoder_encode (Canonical.originChainId msg));
  dest_short : short (JS.TextEncoder_encode (Canonical.destChainId msg));
  nonce_u64 : u64 (Canonical.nonce msg);
  sender_short : short (JS.TextEncoder_encode (Canonical.senderModule msg));
  recipient_short : short (JS.TextEncoder_encode (Canonical.recipientModule msg));
  body_short : short (Canonical.body msg);
  valset_u64 : u64 (Canonical.valsetId msg) }.

End Spec.

(** The account-identifier scheme [getAddressBytes] is documented to decode:
    bech32 (BIP-173), written from the standard. *)
Module Bech32.

Definition charset : list ascii :=
  list_ascii_of_string "qpzry9x8gf2tvdw0s3jn54khce6mua7l".

Definition generator : list Z :=
  [0x3b6a57b2; 0x26508e6d; 0x1ea119fa; 0x3d4233dd; 0x2a1462b3].

Definition polymod_step (chk v : Z) : Z :=
  let top := Z.shiftr chk 25 in
  let chk := Z.lxor (Z.shiftl (Z.land chk 0x1ffffff) 5) v in
  fold_left (λ c '(i, g), if Z.testbit top i then Z.lxor c g else c)
            (zip (seqZ 0 5) generator) chk.

Definition polymod (values : list Z) : Z := fold_left polymod_step values 1.

Definition code (c : ascii) : Z := Z.of_N (N_of_ascii c).

Definition hrp_expand (hrp : list ascii) : list Z :=
  ((λ c, Z.shiftr (code c) 5) <$> hrp) ++ [0] ++ ((λ c, Z.land (code c) 31) <$> hrp).

Definition is_upper (c : ascii) : bool := bool_decide (65 <= code c <= 90).
Definition is_lower (c : ascii) : bool := bool_decide (97 <= code c <= 122).
Definition to_lower (c : ascii) : ascii :=
  if is_upper c then ascii_of_N (Z.to_N (code c + 32)) else c.

(** The position of a character in the data alphabet. *)
Fixpoint index_of (c : ascii) (alphabet : list ascii) (i : Z) : option Z :=
  match alphabet with
  | [] => None
  | a :: rest => if decide (a = c) then Some i else index_of c rest (i + 1)
  end.

(** The human-readable part and the data characters, split at the last
    separator ['1']. [seen] is the text after the candidate separator, read
    from the end. *)
Fixpoint split_last (rev_s : list ascii) (seen : list ascii)
  : option (list ascii * list ascii) :=
  match rev_s with
  | [] => None
  | c :: rest =>
      if decide (c = "1"%char) then Some (rev rest, seen)
      else split_last rest (c :: seen)
  end.

(** Regrouping 5-bit values into bytes without padding; [acc] holds [bits]
    pending bits. Left-over bits must be fewer than five and zero. *)
Fixpoint regroup (values : list Z) (acc bits : Z) : option (list Z) :=
  match values with
  | [] => if decide (bits < 5 ∧ Z.land acc (2 ^ bits - 1) = 0) then Some [] else None
  | v :: rest =>
      let acc := Z.land (Z.lor (Z.shiftl acc 5) v) 0xfff in
      let bits := bits + 5 in
      if decide (8 <= bits)
      then cons (Z.land (Z.shiftr acc (bits - 8)) 0xff) <$> regroup rest acc (bits - 8)
      else regroup rest acc bits
  end.

(** The decoder: human-readable part and payload bytes of a valid bech32
    string; mixed case, a bad character or a bad checksum give [None]. *)
Definition decode (s : string) : option (string * list Z) :=
  let chars := list_ascii_of_string s in
  if existsb is_upper chars && existsb is_lower chars then None
  else
    '(hrp, data) ← split_last (rev (to_lower <$> chars)) [];
    values ← mapM (λ c, index_of c charset 0) data;
    if decide (hrp ≠ [] ∧ (6 <= length values)%nat ∧
               polymod (hrp_expand hrp ++ values) = 1)
    then
      payload ← regroup (take (length values - 6) values) 0 0;
      Some (string_of_list_ascii hrp, payload)
    else None.

End Bech32.

(** Closed forms of what the encoder writes, used to state what its loops
    compute. *)
Module Wire.

(** One chunk of [encodeWithLength]. *)
Definition field (data : list Z) : list Z :=
  Canonical.encodeUvarint (Z.of_nat (length data)) ++ data.

(** The eight bytes [uint64_bytes] leaves in its buffer for an integer. *)
Definition uint64 (n : Z) : list Z := SHA256.be_bytes 8 (n mod 2 ^ 64).

(** The bytes [computeMessageDigest] hashes when [nonce] and [valsetId] are
    integers. *)
Definition message (msg : Canonical.HyperlaneMessage) : list Z :=
  field (JS.TextEncoder_encode (Canonical.originChainId msg)) ++
  field (JS.TextEncoder_encode (Canonical.destChainId msg)) ++
  field (uint64 (Spec.integer_of (Canonical.nonce msg))) ++
  field (JS.TextEncoder_encode (Canonical.senderModule msg)) ++
  field (JS.TextEncoder_encode (Canonical.recipientModule msg)) ++
  field (Canonical.body msg) ++
  field (uint64 (Spec.integer_of (Canonical.valsetId msg))).

(** The sort key of a signer: the bytes [getAddressBytes] returns for its
    operator, and no bytes when the operator is refused. *)
Definition sort_key (s : Canonical.ValsetSigner) : list Z :=
  match Canonical.getAddressBytes (Canonical.operator s) with
  | JS.Ok key => key
  | JS.Throw _ => []
  end.

(** The three chunks [computeValsetHash] pushes for a signer. *)
Definition chunks (s : Canonical.ValsetSigner) : list (list Z) :=
  [field (sort_key s); field (Canonical.attestationPubkey s);
   field (uint64 (Spec.integer_of (Canonical.power s)))].

Definition signer (s : Canonical.ValsetSigner) : list Z := concat (chunks s).

(** The chunks [computeValsetHash] hashes for a list of sorted signers. *)
Definition valset (sortedSigners : list Canonical.ValsetSigner) : list Z :=
  concat (signer <$> sortedSigners).

(** The comparator of the two sorts on signers whose operators are
    accepted. *)
Definition compare (a b : Canonical.ValsetSigner) : Z :=
  JS.Buffer_compare (sort_key a) (sort_key b).

(** Stable insertion sort by a comparator that cannot fail. *)
Section sort.
Context {A : Type} (cmp : A → A → Z).
Fixpoint insert (x : A) (sorted : list A) : list A :=
  match sorted with
  | [] => [x]
  | y :: rest => if decide (cmp x y <= 0) then x :: y :: rest else y :: insert x rest
  end.
Fixpoint sort (arr : list A) : list A :=
  match arr with
  | [] => []
  | x :: rest => insert x (sort rest)
  end.
End sort.

End Wire.

(** What the signing boundary promises, in the terms of the daemon. *)
Module Signing.
Import Go Keys Daemon.

(** A reply that reports an error and carries no signature. *)
Definition is_error (out : Reply * list string) : Prop :=
  match out.1 with
  | PlainText _ _ => True
  | Json statusCode response => statusCode ≠ 200%nat ∧ Signature response = EmptyString
  end.

Section with_crypto.
Context {PrivateKey : Type}.
Context (crypto_ToECDSA : list Z → result PrivateKey).
Context (crypto_Sign : list Z → PrivateKey → result (list Z)).

(** The preconditions of a signature at the [/sign] endpoint: a POST with a
    JSON body that names an operator and a digest in hexadecimal, a digest
    of 32 bytes, a key for the operator, and a signing primitive that
    succeeds. *)
Definition preconditions (s : Server) (r : Request) : Prop :=
  Method r = "POST" ∧
  ∃ req digest privateKey signature,
    Body r = Some req ∧ OperatorBech32 req ≠ EmptyString ∧
    DigestHex req ≠ EmptyString ∧
    hex_DecodeString (DigestHex req) = Val digest ∧ length digest = 32%nat ∧
    GetPrivateKey crypto_ToECDSA (keyStore s) (OperatorBech32 req) = Val privateKey ∧
    crypto_Sign digest privateKey = Val signature.
End with_crypto.

End Signing.

(** The inputs the properties are tried on. *)
Module Examples.
Import Canonical.

(** The message of the design document's concrete scenario. *)
Definition demo_message : HyperlaneMessage :=
  {| originChainId := "orgchain"; destChainId := "dstchain"; nonce := JS.Int 1;
     senderModule := "hyperlane"; recipientModule := "demo";
     body := JS.TextEncoder_encode "hello"; valsetId := JS.Int 2 |}.


(** The scenario message with another nonce. *)
Definition next_message : HyperlaneMessage :=
  {| originChainId := "orgchain"; destChainId := "dstchain"; nonce := JS.Int 2;
     senderModule := "hyperlane"; recipientModule := "demo";
     body := JS.TextEncoder_encode "hello"; valsetId := JS.Int 2 |}.

(** Two entries for one operator, with different keys and powers. *)
Definition twin_a : ValsetSigner :=
  {| operator := "orgvaloper1abc"; attestationPubkey := [2; 1]; power := JS.Int 10 |}.
Definition twin_b : ValsetSigner :=
  {| operator := "orgvaloper1abc"; attestationPubkey := [3; 1]; power := JS.Int 20 |}.

(** Three validators with distinct operators. *)
Definition alice : ValsetSigner :=
  {| operator := "orgvaloper1alice"; attestationPubkey := [2; 7]; power := JS.Int 10 |}.
Definition bob : ValsetSigner :=
  {| operator := "orgvaloper1bob"; attestationPubkey := [3; 8]; power := JS.Int 20 |}.
Definition carol : ValsetSigner :=
  {| operator := "orgvaloper1carol"; attestationPubkey := [2; 9]; power := JS.Int 30 |}.

(** A validator whose power is what [parseInt] makes of a text that is no
    number. *)
Definition dave : ValsetSigner :=
  {| operator := "orgvaloper1dave"; attestationPubkey := [3; 4];
     power := JS.NotInt "NaN" |}.

(** One 20-byte payload under two human-readable parts. *)
Definition payload : list Z := seqZ 1 20.
Definition account_address : string := "org1qypqxpq9qcrsszg2pvxq6rs0zqg3yyc52n82fy".
Definition operator_address : string :=
  "orgvaloper1qypqxpq9qcrsszg2pvxq6rs0zqg3yyc5ny2p0s".

(** A signing request for a digest of three bytes, and stand-ins for the
    primitives of go-ethereum: the key is the decoded bytes, the signature
    is the digest followed by the key. *)
Definition short_request : Daemon.Request :=
  {| Daemon.Method := "POST";
     Daemon.Body := Some {| Daemon.OperatorBech32 := "orgvaloper1abc";
                            Daemon.DigestHex := "010203" |} |}.
Definition toy_ToECDSA (bytes : list Z) : Go.result (list Z) := Go.Val bytes.
Definition toy_Sign (digest : list Z) (key : list Z) : Go.result (list Z) :=
  Go.Val (digest ++ key).
Definition toy_base64 (bytes : list Z) : string := pretty (length bytes).
Definition toy_server : Daemon.Server :=
  {| Daemon.keyStore := {| Keys.Keys := {["orgvaloper1abc" := "0a0b"]} |};
     Daemon.port := "8080" |}.

(** A request for a digest of 32 bytes, a signing primitive that always
    fails, and the remaining stand-ins: a key is its bytes, and is its own
    public key. *)
Definition full_request : Daemon.Request :=
  {| Daemon.Method := "POST";
     Daemon.Body := Some {| Daemon.OperatorBech32 := "orgvaloper1abc";
                            Daemon.DigestHex :=
    "000102030405060708090a0b0c0d0e0f101112131415161718191a1b1c1d1e1f" |} |}.
Definition failing_Sign (digest : list Z) (key : list Z) : Go.result (list Z) :=
  Go.Err "invalid private key".
Definition toy_FromECDSA (key : list Z) : list Z := key.
Definition toy_PublicKey_of (key : list Z) : list Z := key.
Definition toy_CompressPubkey (key : list Z) : list Z := key.

(** A store with one key that is no hexadecimal string. *)
Definition damaged_server : Daemon.Server :=
  {| Daemon.keyStore :=
       {| Keys.Keys := {["orgvaloper1abc" := "0a0b"; "orgvaloper1xyz" := "0x0a0b"]} |};
     Daemon.port := "8080" |}.

(** Signatures as the relayer collects them from three daemons and one
    stranger: two daemons hold the key of [bob]. The decoder is a stand-in
    for base64. *)
Definition toy_decode (s : string) : list Z := JS.TextEncoder_encode s.
Definition double_signed : list Relayer.ValidatorSignature :=
  [ {| Relayer.operatorAddress := "orgvaloper1bob"; Relayer.signature := "c2lnMQ==" |};
    {| Relayer.operatorAddress := "orgvaloper1alice"; Relayer.signature := "c2lnMg==" |};
    {| Relayer.operatorAddress := "orgvaloper1bob"; Relayer.signature := "c2lnMQ==" |};
    {| Relayer.operatorAddress := "orgvaloper1dave"; Relayer.signature := "c2lnNA==" |} ].

End Examples.

(* ===================================================================== *)
(** * Part III: properties *)
(* ===================================================================== *)

(** ** Built-ins *)
Section builtins.
Import JS.

Lemma bind_Ok {A B} (a : A) (f : A → result B) : (Ok a ≫= f) = f a.
Proof. reflexivity. Qed.

Lemma new_Uint8Array_nat (n : nat) :
  new_Uint8Array (Z.of_nat n) = Ok (replicate n 0).
Proof.
  unfold new_Uint8Array. case_decide; [lia|]. by rewrite Nat2Z.id.
Qed.

Lemma TypedArray_set_fits (target source : list Z) (offset : nat) :
  (offset + length source <= length target)%nat →
  TypedArray_set target source offset =
    Ok (take offset target ++ source ++ drop (offset + length source) target).
Proof. intros. unfold TypedArray_set. by case_decide. Qed.

(** Filling a fresh array from its start. *)
Lemma TypedArray_set_fresh (source : list Z) (n : nat) :
  TypedArray_set (replicate (length source + n) 0) source 0 =
    Ok (source ++ replicate n 0).
Proof.
  rewrite TypedArray_set_fits by (rewrite length_replicate; lia).
  by rewrite take_0, drop_replicate, Nat.add_0_l, Nat.add_sub'.
Qed.

(** Filling the zero tail of an array. *)
Lemma TypedArray_set_tail (done source : list Z) (n : nat) :
  TypedArray_set (done ++ replicate (length source + n) 0) source (length done) =
    Ok (done ++ source ++ replicate n 0).
Proof.
  rewrite TypedArray_set_fits by (rewrite length_app, length_replicate; lia).
  rewrite take_app_length, drop_app_add', drop_replicate by done.
  by rewrite Nat.add_sub'.
Qed.

Lemma ToInt32_small (x : Z) : -2147483648 <= x < 2147483648 → ToInt32 x = x.
Proof. intros. unfold ToInt32. rewrite Z.mod_small; lia. Qed.

Lemma ToInt32_mod (x : Z) (k : Z) :
  0 <= k <= 32 → ToInt32 x mod 2 ^ k = x mod 2 ^ k.
Proof.
  intros Hk. unfold ToInt32.
  assert (4294967296 = 2 ^ k * 2 ^ (32 - k)) as ->.
  { rewrite <- Z.pow_add_r by lia. by replace (k + (32 - k)) with 32 by lia. }
  assert (2147483648 mod 2 ^ k = 0 ∨ k = 32) as [H0 | ->].
  { destruct (decide (k = 32)) as [|]; [by right|left].
    change 2147483648 with (2 ^ 31).
    replace 31 with ((31 - k) + k) by lia. rewrite Z.pow_add_r by lia.
    apply Z_mod_mult. }
  - assert (0 < 2 ^ k) by (apply Z.pow_pos_nonneg; lia).
    assert (0 < 2 ^ (32 - k)) by (apply Z.pow_pos_nonneg; lia).
    rewrite <- Zminus_mod_idemp_l.
    rewrite Z.rem_mul_r by lia.
    rewrite (Z.mul_comm (2 ^ k)), Z_mod_plus_full, Z.mod_mod by lia.
    rewrite Zminus_mod_idemp_l.
    rewrite <- Z.add_sub_assoc, Z.sub_diag, Z.add_0_r. done.
  - change (2 ^ 32 * 2 ^ (32 - 32)) with (2 ^ 32).
    rewrite <- Zminus_mod_idemp_l, Z.mod_mod by lia.
    rewrite Zminus_mod_idemp_l. f_equal. lia.
Qed.

Lemma ToInt32_testbit (x j : Z) :
  0 <= j < 32 → Z.testbit (ToInt32 x) j = Z.testbit x j.
Proof.
  intros Hj.
  rewrite <- (Z.mod_pow2_bits_low (ToInt32 x) 32 j) by lia.
  rewrite <- (Z.mod_pow2_bits_low x 32 j) by lia.
  by rewrite ToInt32_mod by lia.
Qed.

(** [x & 0xFF] is the low byte of [x], whatever the sign of [x]. *)
Lemma band_255 (x : Z) : band x 0xFF = x mod 256.
Proof.
  unfold band. rewrite (ToInt32_small 255) by lia.
  change 255 with (Z.ones 8). rewrite Z.land_ones by lia.
  by apply (ToInt32_mod x 8).
Qed.

Lemma shl_1 (p : Z) : 0 <= p < 31 → shl 1 p = 2 ^ p.
Proof.
  intros Hp. unfold shl, ToUint32.
  rewrite (ToInt32_small 1) by lia.
  rewrite (Z.mod_small p) by lia.
  change 31 with (Z.ones 5). rewrite Z.land_ones by lia.
  rewrite Z.mod_small by (change (2 ^ 5) with 32; lia).
  rewrite Z.shiftl_1_l. apply ToInt32_small.
  assert (2 ^ p < 2 ^ 31) by (apply Z.pow_lt_mono_r; lia).
  assert (0 < 2 ^ p) by (apply Z.pow_pos_nonneg; lia).
  change (2 ^ 31) with 2147483648 in *. lia.
Qed.

(** The mask test of [parseBitmap] and [isBitSet] reads bit [p]. *)
Lemma band_bit (x p : Z) :
  0 <= p < 31 → band x (shl 1 p) ≠ 0 ↔ Z.testbit x p = true.
Proof.
  intros Hp. rewrite shl_1 by lia. unfold band.
  assert (0 < 2 ^ p < 2147483648).
  { split; [apply Z.pow_pos_nonneg; lia|].
    change 2147483648 with (2 ^ 31). apply Z.pow_lt_mono_r; lia. }
  rewrite (ToInt32_small (2 ^ p)) by lia.
  rewrite <- (ToInt32_testbit x p) by lia.
  destruct (Z.testbit (ToInt32 x) p) eqn:Hb.
  - split; [done|intros _ Hz].
    assert (Z.testbit (Z.land (ToInt32 x) (2 ^ p)) p = true) as Hc.
    { by rewrite Z.land_spec, Hb, Z.pow2_bits_true by lia. }
    by rewrite Hz, Z.bits_0 in Hc.
  - split; [intros Hnz|done]. exfalso. apply Hnz.
    apply Z.bits_inj'. intros j Hj.
    rewrite Z.land_spec, Z.bits_0.
    destruct (decide (j = p)) as [->|].
    + by rewrite Hb.
    + by rewrite Z.pow2_bits_false, andb_false_r by lia.
Qed.

End builtins.

(** ** SHA-256 *)

(** The test vectors of the standard: "abc", the empty message, and the
    message of 56 bytes that needs a second block. *)
Example sha256_abc :
  SHA256.digest (JS.TextEncoder_encode "abc")
  = [0xba; 0x78; 0x16; 0xbf; 0x8f; 0x01; 0xcf; 0xea; 0x41; 0x41; 0x40; 0xde;
     0x5d; 0xae; 0x22; 0x23; 0xb0; 0x03; 0x61; 0xa3; 0x96; 0x17; 0x7a; 0x9c;
     0xb4; 0x10; 0xff; 0x61; 0xf2; 0x00; 0x15; 0xad].
Proof. vm_compute. reflexivity. Qed.

Example sha256_empty :
  SHA256.digest []
  = [0xe3; 0xb0; 0xc4; 0x42; 0x98; 0xfc; 0x1c; 0x14; 0x9a; 0xfb; 0xf4; 0xc8;
     0x99; 0x6f; 0xb9; 0x24; 0x27; 0xae; 0x41; 0xe4; 0x64; 0x9b; 0x93; 0x4c;
     0xa4; 0x95; 0x99; 0x1b; 0x78; 0x52; 0xb8; 0x55].
Proof. vm_compute. reflexivity. Qed.

Example sha256_two_blocks :
  SHA256.digest
    (JS.TextEncoder_encode "abcdbcdecdefdefgefghfghighijhijkijkljklmklmnlmnomnopnopq")
  = [0x24; 0x8d; 0x6a; 0x61; 0xd2; 0x06; 0x38; 0xb8; 0xe5; 0xc0; 0x26; 0x93;
     0x0c; 0x3e; 0x60; 0x39; 0xa3; 0x3c; 0xe4; 0x59; 0x64; 0xff; 0x21; 0x67;
     0xf6; 0xec; 0xed; 0xd4; 0x19; 0xdb; 0x06; 0xc1].
Proof. vm_compute. reflexivity. Qed.

Lemma sha256_length (m : list Z) : length (SHA256.digest m) = 32%nat.
Proof.
  unfold SHA256.digest. generalize (SHA256.blocks (length (SHA256.pad m) / 64) SHA256.H0 (SHA256.pad m)).
  intros s. reflexivity.
Qed.

(** ** The canonical encoder *)
Section encoder.
Import JS Canonical.

Lemma lor_128 (y : Z) : 0 <= y < 256 → Z.lor y 128 = y mod 128 + 128.
Proof.
  intros Hy.
  assert (Forall (λ y, Z.lor y 128 = y mod 128 + 128) (seqZ 0 256)) as HF.
  { apply (bool_decide_unpack _). vm_compute. done. }
  rewrite Forall_forall in HF. apply HF, elem_of_seqZ. lia.
Qed.

(** The byte the loop pushes is the low 7-bit group with the continuation
    bit, although the code masks with [0xFF]. *)
Lemma continuation_byte (x : Z) : bor (band x 0xFF) 0x80 = x mod 128 + 128.
Proof.
  rewrite band_255. pose proof (Z.mod_pos_bound x 256 ltac:(lia)).
  unfold bor. rewrite !ToInt32_small by lia. rewrite lor_128 by lia.
  f_equal. change 256 with (128 * 2).
  rewrite Z.rem_mul_r by lia. rewrite Z.mul_comm, Z_mod_plus_full.
  by rewrite Z.mod_mod by lia.
Qed.

Lemma ushr_7 (x : Z) : 0 <= x < 4294967296 → ushr x 7 = x / 128.
Proof.
  intros Hx. unfold ushr, ToUint32. rewrite (Z.mod_small x) by lia.
  change (Z.land (7 mod 4294967296) 31) with 7.
  by rewrite Z.shiftr_div_pow2 by lia.
Qed.

Lemma encodeUvarint_while_uvarint (value : Z) (result : list Z) :
  0 <= value < 4294967296 →
  ∀ value' result', encodeUvarint_while value result = (value', result') →
  result' ++ [band value' 0xFF] = result ++ Spec.uvarint value.
Proof.
  intros [Hlo Hhi]. revert result Hlo Hhi.
  induction value as [value IH] using (well_founded_induction (Z.lt_wf 0)).
  intros result Hlo Hhi value' result'.
  rewrite encodeUvarint_while_equation_1. simp uvarint. 
  destruct (decide (128 <= value)) as [Hge|Hlt]; simpl.
  - destruct (decide (value < 128)) as [?|?]; [lia|]. simpl.
    intros Heq. rewrite ushr_7, continuation_byte in Heq by lia.
    assert (0 <= value / 128 < value).
    { split; [apply Z.div_pos; lia | apply Z.div_lt; lia]. }
    apply IH in Heq; [|lia..].
    by rewrite Heq, <- app_assoc.
  - destruct (decide (value < 128)) as [?|?]; [|lia]. simpl.
    intros [= <- <-]. rewrite band_255.
    assert (value < 0 ∨ 0 <= value) as [?|?] by lia; [lia|].
    by rewrite Z.mod_small by lia.
Qed.
Lemma uvarint_bytes (n : Z) : 0 <= n → Forall (λ b, 0 <= b < 256) (Spec.uvarint n).
Proof.
  induction n as [n IH] using (well_founded_induction (Z.lt_wf 0)).
  intros Hn. simp uvarint. destruct (decide (n < 128)) as [?|?]; simpl.
  - repeat constructor; lia.
  - constructor.
    + pose proof (Z.mod_pos_bound n 128 ltac:(lia)). lia.
    + apply IH; [split|]; try (apply Z.div_pos; lia). apply Z.div_lt; lia.
Qed.

(** The document's variable-length integer denotes the number it
    encodes. *)
Lemma uvarint_value_uvarint (n : Z) : 0 <= n → Spec.uvarint_value (Spec.uvarint n) = n.
Proof.
  induction n as [n IH] using (well_founded_induction (Z.lt_wf 0)).
  intros Hn. simp uvarint. destruct (decide (n < 128)) as [?|?]; simpl.
  - rewrite Z.mod_small; lia.
  - rewrite IH; [|split; [apply Z.div_pos; lia | apply Z.div_lt; lia]
                 |apply Z.div_pos; lia].
    replace ((n mod 128 + 128) mod 128) with (n mod 128).
    + pose proof (Z.div_mod n 128 ltac:(lia)). lia.
    + rewrite <- (Z.mul_1_l 128) at 3. by rewrite Z_mod_plus_full, Z.mod_mod by lia.
Qed.

Lemma ToUint8_bytes (l : list Z) :
  Forall (λ b, 0 <= b < 256) l → ToUint8 <$> l = l.
Proof.
  induction 1 as [|b l Hb _ IH]; [done|]. rewrite fmap_cons, IH.
  unfold ToUint8. by rewrite Z.mod_small.
Qed.

(** Below 2^32 the loop of [encodeUvarint] writes the document's
    variable-length integer. *)
Lemma encodeUvarint_uvarint (n : Z) :
  0 <= n < 4294967296 → encodeUvarint n = Spec.uvarint n.
Proof.
  intros Hn. unfold encodeUvarint.
  destruct (encodeUvarint_while n []) as [value result] eqn:Heq.
  apply encodeUvarint_while_uvarint in Heq; [|done].
  rewrite Heq. simpl. apply ToUint8_bytes, uvarint_bytes. lia.
Qed.

(** From 2^32 on it does not: [>>>] drops the bits above the 32nd. *)
Lemma encodeUvarint_wraps : encodeUvarint (2 ^ 32) = [128; 0].
Proof. vm_compute. reflexivity. Qed.

Lemma encodeWithLength_field (data : list Z) :
  encodeWithLength data = Ok (Wire.field data).
Proof.
  unfold encodeWithLength, Wire.field. cbv zeta.
  set (lengthBytes := encodeUvarint _).
  rewrite new_Uint8Array_nat, bind_Ok, TypedArray_set_fresh, bind_Ok.
  pose proof (TypedArray_set_tail lengthBytes data 0) as Hset.
  rewrite Nat.add_0_r in Hset. rewrite Hset. simpl. by rewrite app_nil_r.
Qed.

Lemma uint64_bytes_wire (n : Z) : uint64_bytes (Int n) = Ok (Wire.uint64 n).
Proof. reflexivity. Qed.

(** [uint64_bytes] throws for the numbers that are no integers, and for no
    other. *)
Lemma uint64_bytes_rejects (n : number) :
  Spec.rejects (uint64_bytes n) ↔ ¬ Spec.is_integer n.
Proof.
  destruct n as [z|shown].
  - rewrite uint64_bytes_wire. split.
    + by intros [e ?].
    + intros Hno. destruct Hno. by exists z.
  - split.
    + intros _ [z ?]. done.
    + intros _. by eexists.
Qed.

Lemma uint64_field (n : Z) : Wire.field (Wire.uint64 n) = 8 :: Wire.uint64 n.
Proof. reflexivity. Qed.

Lemma uint64_u64_be (n : Z) : 0 <= n < 2 ^ 64 → Wire.uint64 n = Spec.u64_be n.
Proof.
  intros Hn. unfold Wire.uint64, Spec.u64_be, SHA256.be_bytes.
  rewrite (Z.mod_small n) by done. simpl.
  change 255 with (Z.ones 8). rewrite !Z.land_ones by lia.
  rewrite !Z.shiftr_div_pow2 by lia. by rewrite Z.div_1_r.
Qed.

(** The document's eight bytes denote the number they encode. *)
Lemma be_value_u64_be (n : Z) : 0 <= n < 2 ^ 64 → Spec.be_value (Spec.u64_be n) = n.
Proof.
  intros Hn. unfold Spec.be_value, Spec.u64_be. cbn [fold_left].
  assert (∀ k, 0 <= k → n / 2 ^ k = 256 * (n / 2 ^ (k + 8)) + n / 2 ^ k mod 256) as Hstep.
  { intros k Hk. rewrite Z.pow_add_r, <- Z.div_div by lia.
    change (2 ^ 8) with 256. apply Z.div_mod. lia. }
  pose proof (Hstep 0 ltac:(lia)) as H0. pose proof (Hstep 8 ltac:(lia)) as H8.
  pose proof (Hstep 16 ltac:(lia)) as H16. pose proof (Hstep 24 ltac:(lia)) as H24.
  pose proof (Hstep 32 ltac:(lia)) as H32. pose proof (Hstep 40 ltac:(lia)) as H40.
  pose proof (Hstep 48 ltac:(lia)) as H48. pose proof (Hstep 56 ltac:(lia)) as H56.
  change (0 + 8) with 8 in H0. change (8 + 8) with 16 in H8.
  change (16 + 8) with 24 in H16. change (24 + 8) with 32 in H24.
  change (32 + 8) with 40 in H32. change (40 + 8) with 48 in H40.
  change (48 + 8) with 56 in H48. change (56 + 8) with 64 in H56.
  rewrite Z.pow_0_r, Z.div_1_r in H0.
  rewrite (Z.div_small n (2 ^ 64)) in H56 by lia.
  generalize dependent (n / 2 ^ 56). generalize dependent (n / 2 ^ 48).
  generalize dependent (n / 2 ^ 40). generalize dependent (n / 2 ^ 32).
  generalize dependent (n / 2 ^ 24). generalize dependent (n / 2 ^ 16).
  generalize dependent (n / 2 ^ 8). intros. lia.
Qed.

Lemma fold_left_lengths (data : list (list Z)) (acc : nat) :
  fold_left (λ sum arr, sum + length arr)%nat data acc
  = (acc + length (concat data))%nat.
Proof.
  revert acc. induction data as [|arr data IH]; intros acc; simpl; [lia|].
  rewrite IH, length_app. lia.
Qed.

Lemma copy_all_concat (data : list (list Z)) (done : list Z) :
  copy_all data (done ++ replicate (length (concat data)) 0) (length done)
  = Ok (done ++ concat data).
Proof.
  revert done. induction data as [|arr data IH]; intros done; simpl.
  - done.
  - rewrite length_app, TypedArray_set_tail, bind_Ok.
    rewrite (assoc_L (++)), <- length_app. rewrite IH. by rewrite <- (assoc_L (++)).
Qed.

(** The offset loop of the two hash functions is concatenation. *)
Lemma concat_data_concat (data : list (list Z)) : concat_data data = Ok (concat data).
Proof.
  unfold concat_data. cbv zeta. rewrite fold_left_lengths, Nat.add_0_l.
  rewrite new_Uint8Array_nat, bind_Ok. apply (copy_all_concat data []).
Qed.

End encoder.

(** Runs the first call of a sequence of calls, where that call returns. *)
Ltac run_head :=
  lazymatch goal with
  | |- (Canonical.encodeWithLength ?d ≫= _) = _ =>
      rewrite (encodeWithLength_field d), bind_Ok
  | |- (Canonical.uint64_bytes (JS.Int ?n) ≫= _) = _ =>
      rewrite (uint64_bytes_wire n), bind_Ok
  | |- (Canonical.concat_data ?d ≫= _) = _ =>
      rewrite (concat_data_concat d), bind_Ok
  end.

Section message_digest.
Import JS Canonical.

(** With integers for [nonce] and [valsetId], [computeMessageDigest] does
    not throw: it hashes the seven chunks in order. *)
Lemma computeMessageDigest_wire (msg : HyperlaneMessage) :
  Spec.is_integer (nonce msg) → Spec.is_integer (valsetId msg) →
  computeMessageDigest msg = Ok (SHA256.digest (Wire.message msg)).
Proof.
  intros [n Hn] [v Hv].
  unfold computeMessageDigest, encodeStringWithLength, Wire.message.
  rewrite Hn, Hv. cbn [Spec.integer_of].
  repeat run_head.
  unfold sha256, Wire.message.
  simpl concat. by rewrite app_nil_r.
Qed.

Lemma u64_is_integer (x : number) : Spec.u64 x → Spec.is_integer x.
Proof. intros (n & -> & _). by exists n. Qed.

Lemma field_length_prefixed (data : list Z) :
  Spec.short data → Wire.field data = Spec.length_prefixed data.
Proof.
  unfold Spec.short, Wire.field, Spec.length_prefixed. intros Hs.
  rewrite encodeUvarint_uvarint; [done|]. change (2 ^ 32) with 4294967296 in Hs. lia.
Qed.

Lemma message_canonical_encoding (msg : HyperlaneMessage) :
  Spec.message_ok msg → Wire.message msg = Spec.canonical_encoding msg.
Proof.
  intros [Ho Hd (n & Hn & Hnr) Hs Hr Hb (v & Hv & Hvr)].
  unfold Wire.message, Spec.canonical_encoding.
  rewrite Hn, Hv. cbn [Spec.integer_of].
  rewrite !uint64_field, !field_length_prefixed by done.
  unfold Spec.u64_field. by rewrite !uint64_u64_be by done.
Qed.

End message_digest.

(** ** Sort keys and the sort *)
Section ordering.
Import JS Canonical.

Lemma Buffer_compare_refl (a : list Z) : Buffer_compare a a = 0.
Proof. induction a as [|x a IH]; simpl; [done|]. repeat case_decide; lia. Qed.

Lemma Buffer_compare_eq (a b : list Z) : Buffer_compare a b = 0 → a = b.
Proof.
  revert b. induction a as [|x a IH]; intros [|y b]; simpl; try done.
  repeat case_decide; try done. intros ?%IH. f_equal; [lia|done].
Qed.

Lemma Buffer_compare_flip (a b : list Z) : Buffer_compare b a = - Buffer_compare a b.
Proof.
  revert b. induction a as [|x a IH]; intros [|y b]; simpl; try done.
  repeat case_decide; try lia. apply IH.
Qed.

#[local] Instance key_le_trans : Transitive Spec.key_le.
Proof.
  unfold Spec.key_le. intros a. induction a as [|x a IH]; intros [|y b] [|z c]; simpl;
    try done; try lia.
  repeat case_decide; try lia. apply IH.
Qed.

Lemma key_le_total (a b : list Z) : Spec.key_le a b ∨ Spec.key_le b a.
Proof. unfold Spec.key_le. rewrite (Buffer_compare_flip a b). lia. Qed.

Lemma key_le_antisym (a b : list Z) : Spec.key_le a b → Spec.key_le b a → a = b.
Proof.
  unfold Spec.key_le. rewrite (Buffer_compare_flip a b). intros.
  apply Buffer_compare_eq. lia.
Qed.

(** *** Insertion sort by a comparator that cannot fail *)
Section pure_sort.
Context {A : Type} (cmp : A → A → Z).
Abbreviation le := (λ x y, cmp x y <= 0).

Lemma insert_Permutation (x : A) (l : list A) : Wire.insert cmp x l ≡ₚ x :: l.
Proof.
  induction l as [|y l IH]; simpl; [done|]. case_decide; [done|].
  by rewrite IH, Permutation_swap.
Qed.

Lemma sort_Permutation (l : list A) : Wire.sort cmp l ≡ₚ l.
Proof.
  induction l as [|x l IH]; simpl; [done|]. by rewrite insert_Permutation, IH.
Qed.

Context (cmp_total : ∀ x y, cmp x y <= 0 ∨ cmp y x <= 0).

Lemma insert_HdRel (x y : A) (l : list A) :
  cmp y x <= 0 → HdRel le y l → HdRel le y (Wire.insert cmp x l).
Proof.
  intros Hyx Hhd. destruct l as [|z l]; simpl; [by constructor|].
  case_decide; constructor; [done|]. by inv Hhd.
Qed.

Lemma insert_Sorted (x : A) (l : list A) :
  Sorted le l → Sorted le (Wire.insert cmp x l).
Proof.
  induction 1 as [|y l Hl IH Hhd]; simpl; [by repeat constructor|].
  case_decide as Hxy.
  - by repeat constructor.
  - constructor; [done|]. apply insert_HdRel; [|done].
    destruct (cmp_total x y); [done|lia].
Qed.

Lemma sort_Sorted (l : list A) : Sorted le (Wire.sort cmp l).
Proof. induction l; simpl; [constructor|by apply insert_Sorted]. Qed.

(** The sort is stable: the entries that share a class [P] which the
    comparator separates from the rest keep their input order. *)
Lemma insert_stable (P : A → Prop) `{!∀ x, Decision (P x)} (x : A) (l : list A) :
  (∀ y, P x → P y → cmp x y <= 0) →
  filter P (Wire.insert cmp x l) = filter P (x :: l).
Proof.
  intros Hclass. induction l as [|y l IH]; simpl; [done|].
  case_decide as Hxy; [done|].
  rewrite filter_cons, IH, !filter_cons.
  destruct (decide (P x)) as [Hx|]; [|done].
  destruct (decide (P y)) as [Hy|]; [|done].
  destruct Hxy. by apply Hclass.
Qed.

Lemma sort_stable (P : A → Prop) `{!∀ x, Decision (P x)} (l : list A) :
  (∀ x y, P x → P y → cmp x y <= 0) →
  filter P (Wire.sort cmp l) = filter P l.
Proof.
  intros Hclass. induction l as [|x l IH]; simpl; [done|].
  rewrite insert_stable by eauto. by rewrite !filter_cons, IH.
Qed.

End pure_sort.

(** *** The sort of the relayer on accepted operators *)

Lemma accepted_sort_key (s : ValsetSigner) :
  Spec.accepted (operator s) → getAddressBytes (operator s) = Ok (Wire.sort_key s).
Proof. intros [key Hkey]. unfold Wire.sort_key. by rewrite Hkey. Qed.

Lemma compareSigners_accepted (a b : ValsetSigner) :
  Spec.accepted (operator a) → Spec.accepted (operator b) →
  compareSigners a b = Ok (Wire.compare a b).
Proof.
  intros Ha Hb. unfold compareSigners.
  by rewrite (accepted_sort_key a Ha), bind_Ok, (accepted_sort_key b Hb), bind_Ok.
Qed.

Abbreviation all_accepted := (Forall (λ s, Spec.accepted (operator s))).

Lemma sort_insert_accepted (x : ValsetSigner) (l : list ValsetSigner) :
  Spec.accepted (operator x) → all_accepted l →
  sort_insert compareSigners x l = Ok (Wire.insert Wire.compare x l).
Proof.
  intros Hx. induction 1 as [|y l Hy Hl IH]; simpl; [done|].
  rewrite compareSigners_accepted, bind_Ok by done.
  case_decide; [done|]. by rewrite IH, bind_Ok.
Qed.

Lemma Array_sort_accepted (l : list ValsetSigner) :
  all_accepted l → Array_sort compareSigners l = Ok (Wire.sort Wire.compare l).
Proof.
  induction 1 as [|x l Hx Hl IH]; simpl; [done|].
  rewrite IH, bind_Ok. apply sort_insert_accepted; [done|].
  by rewrite sort_Permutation.
Qed.

Lemma compare_total (a b : ValsetSigner) :
  Wire.compare a b <= 0 ∨ Wire.compare b a <= 0.
Proof. apply key_le_total. Qed.

(** Two signers with one sort key in a list of distinct keys are one
    signer. *)
Lemma distinct_keys_inj (l : list ValsetSigner) (a b : ValsetSigner) :
  NoDup (Wire.sort_key <$> l) → a ∈ l → b ∈ l →
  Wire.sort_key a = Wire.sort_key b → a = b.
Proof.
  induction l as [|x l IH]; [by intros _ ?%elem_of_nil|].
  rewrite fmap_cons, NoDup_cons, !elem_of_cons.
  intros [Hx Hl] [->|Ha] [->|Hb] Heq; try done.
  - destruct Hx. rewrite Heq. by apply list_elem_of_fmap_2.
  - destruct Hx. rewrite <- Heq. by apply list_elem_of_fmap_2.
  - by apply IH.
Qed.

(** With distinct keys the sorted order does not depend on the input
    order. *)
Lemma sort_permutation_invariant (l l' : list ValsetSigner) :
  l ≡ₚ l' → NoDup (Wire.sort_key <$> l) →
  Wire.sort Wire.compare l = Wire.sort Wire.compare l'.
Proof.
  intros Hperm Hdistinct.
  assert (Transitive (λ a b, Wire.compare a b <= 0)) as Htrans.
  { intros a b c. apply key_le_trans. }
  apply (Sorted_unique_strong (λ a b, Wire.compare a b <= 0)).
  - intros a b Ha Hb Hab Hba.
    apply (distinct_keys_inj l); [done|..].
    + by rewrite sort_Permutation in Ha.
    + by rewrite sort_Permutation, <- Hperm in Hb.
    + by apply key_le_antisym.
  - apply sort_Sorted, compare_total.
  - apply sort_Sorted, compare_total.
  - by rewrite !sort_Permutation.
Qed.

(** Any two stable sorts agree: a list in ascending key order is fixed by
    the order of the entries of each key. So the array [Array_sort] returns
    on accepted operators does not depend on the order in which an engine
    calls the comparator. *)
Lemma stable_sorted_unique (s1 s2 : list ValsetSigner) :
  Sorted (λ a b, Wire.compare a b <= 0) s1 →
  Sorted (λ a b, Wire.compare a b <= 0) s2 →
  (∀ key, filter (λ s, Wire.sort_key s = key) s1
          = filter (λ s, Wire.sort_key s = key) s2) →
  s1 = s2.
Proof.
  assert (Transitive (λ a b, Wire.compare a b <= 0)) as Htrans.
  { intros a b c. apply key_le_trans. }
  intros H1%Sorted_StronglySorted H2%Sorted_StronglySorted; [|done..].
  revert s2 H2. induction H1 as [|x1 s1 Hs1 IH Hx1]; intros s2 H2 Hclass.
  - destruct s2 as [|x2 s2]; [done|]. specialize (Hclass (Wire.sort_key x2)).
    rewrite filter_cons_True in Hclass by done. discriminate Hclass.
  - destruct H2 as [|x2 s2 Hs2 Hx2].
    { specialize (Hclass (Wire.sort_key x1)).
      rewrite filter_cons_True in Hclass by done. discriminate Hclass. }
    assert (x1 ∈ x2 :: s2) as Hin1.
    { eapply list_elem_of_filter. rewrite <- (Hclass (Wire.sort_key x1)).
      rewrite filter_cons_True by done. by left. }
    assert (x2 ∈ x1 :: s1) as Hin2.
    { eapply list_elem_of_filter. rewrite (Hclass (Wire.sort_key x2)).
      rewrite filter_cons_True by done. by left. }
    rewrite Forall_forall in Hx1, Hx2.
    assert (Wire.sort_key x1 = Wire.sort_key x2) as Hkey.
    { apply elem_of_cons in Hin1 as [->|Hin1]; [done|].
      apply elem_of_cons in Hin2 as [->|Hin2]; [done|].
      apply key_le_antisym; [by apply Hx1|by apply Hx2]. }
    assert (x1 = x2) as ->.
    { pose proof (Hclass (Wire.sort_key x1)) as Hhead.
      rewrite !filter_cons_True in Hhead by done. by injection Hhead. }
    f_equal. apply IH; [done|]. intros key. specialize (Hclass key).
    rewrite !filter_cons in Hclass.
    destruct (decide (Wire.sort_key x2 = key)); [by injection Hclass|done].
Qed.

End ordering.

(** ** The validator-set hash *)
Section valset_hash.
Import JS Canonical.

Abbreviation all_accepted := (Forall (λ s, Spec.accepted (operator s))).
Abbreviation all_integer := (Forall (λ s, Spec.is_integer (power s))).

(** What [getAddressBytes] returns is always a truncated hash of the text
    after the separator. *)
Lemma getAddressBytes_hash (bech32Addr : string) (key : list Z) :
  getAddressBytes bech32Addr = Ok key →
  ∃ hrp data, split bech32Addr "1" = [hrp; data] ∧
    key = take 20 (SHA256.digest (TextEncoder_encode data)).
Proof.
  unfold getAddressBytes.
  destruct (split bech32Addr "1") as [|hrp [|data [|? ?]]];
    cbn [length]; case_decide; try done; try lia.
  change (default EmptyString ([hrp; data] !! 1%nat)) with data.
  change (new_Uint8Array 20) with (new_Uint8Array (Z.of_nat 20)).
  rewrite new_Uint8Array_nat, bind_Ok. unfold sha256.
  set (hash := take 20 _).
  assert (length hash = 20%nat) as Hlen.
  { unfold hash. rewrite length_take, sha256_length. lia. }
  pose proof (TypedArray_set_fresh hash 0) as Hset.
  rewrite Hlen in Hset. change (20 + 0)%nat with 20%nat in Hset.
  change (replicate 0 0) with (@nil Z) in Hset. rewrite Hset, app_nil_r.
  intros [= <-]. by exists hrp, data.
Qed.

(** One turn of the loop, for an accepted operator and an integer power. *)
Lemma push_signers_step (s : ValsetSigner) (l : list ValsetSigner)
    (data : list (list Z)) :
  Spec.accepted (operator s) → Spec.is_integer (power s) →
  push_signers (s :: l) data = push_signers l (data ++ Wire.chunks s).
Proof.
  intros Hs [p Hp]. cbn [push_signers]. unfold Wire.chunks.
  rewrite (accepted_sort_key s Hs), bind_Ok, Hp. cbn [Spec.integer_of].
  by repeat run_head.
Qed.

Lemma push_signers_accepted (l : list ValsetSigner) (data : list (list Z)) :
  all_accepted l → all_integer l →
  push_signers l data = Ok (data ++ concat (Wire.chunks <$> l)).
Proof.
  intros Hl Hp. revert data.
  induction Hl as [|s l Hs Hl IH]; intros data.
  - simpl. by rewrite app_nil_r.
  - apply Forall_cons in Hp as [Hps Hpl].
    rewrite push_signers_step, IH by done.
    by rewrite fmap_cons, concat_cons, (assoc_L (++)).
Qed.

Lemma concat_chunks (l : list ValsetSigner) :
  concat (concat (Wire.chunks <$> l)) = Wire.valset l.
Proof.
  unfold Wire.valset. induction l as [|s l IH]; [done|].
  by rewrite !fmap_cons, !concat_cons, concat_app, IH.
Qed.

Lemma getSortedSignerOrder_accepted (l : list ValsetSigner) :
  all_accepted l → getSortedSignerOrder l = Ok (Wire.sort Wire.compare l).
Proof. apply Array_sort_accepted. Qed.

(** On accepted operators and integer powers [computeValsetHash] hashes
    the chunks of the signers in sorted order. *)
Lemma computeValsetHash_wire (l : list ValsetSigner) :
  all_accepted l → all_integer l →
  computeValsetHash l = Ok (SHA256.digest (Wire.valset (Wire.sort Wire.compare l))).
Proof.
  intros Hl Hp. unfold computeValsetHash.
  rewrite Array_sort_accepted, bind_Ok by done.
  rewrite push_signers_accepted, bind_Ok by (by rewrite sort_Permutation).
  run_head. by rewrite app_nil_l, concat_chunks.
Qed.

End valset_hash.

(** ** The bitmap codec *)
Section bitmap.
Import JS Bitmap.

Lemma ceil_div_8 (t : Z) : ceil_div t 8 = (t + 7) / 8.
Proof. unfold ceil_div. Z.div_mod_to_equations. lia. Qed.

Lemma rem_8 (i : Z) : 0 <= i → rem i 8 = i mod 8.
Proof. intros. unfold rem. by rewrite Z.rem_mod_nonneg by lia. Qed.

Lemma split_index (i j : Z) : i = j ↔ i / 8 = j / 8 ∧ i mod 8 = j mod 8.
Proof.
  split; [by intros ->|]. intros [Hq Hr].
  rewrite (Z.div_mod i 8), (Z.div_mod j 8) by lia. by rewrite Hq, Hr.
Qed.

Lemma get_lookup (bitmap : list Z) (k : Z) :
  0 <= k → get bitmap k = default 0 (bitmap !! Z.to_nat k).
Proof. intros. unfold get. by case_decide. Qed.

(** The bit the mask test reads is the bit of the layout. *)
Lemma mask_test_bit (bitmap : list Z) (i : Z) :
  0 <= i →
  band (get bitmap (floor_div i 8)) (shl 1 (rem i 8)) ≠ 0 ↔ Spec.bit bitmap i = true.
Proof.
  intros Hi. unfold floor_div, Spec.bit. rewrite rem_8 by done.
  pose proof (Z.mod_pos_bound i 8 ltac:(lia)).
  rewrite band_bit by lia. rewrite get_lookup; [done|]. apply Z.div_pos; lia.
Qed.

(** [isBitSet] reads the bit of the layout, in every bitmap. *)
Lemma isBitSet_bit (bitmap : list Z) (i : Z) :
  0 <= i → isBitSet bitmap i = Spec.bit bitmap i.
Proof.
  intros Hi. unfold isBitSet. cbv zeta.
  destruct (decide (Z.of_nat (length bitmap) <= floor_div i 8)) as [Hout|Hin].
  - unfold Spec.bit, floor_div in *. rewrite lookup_ge_None_2 by lia.
    symmetry. apply Z.bits_0.
  - apply eq_bool_prop_intro. rewrite bool_decide_spec, mask_test_bit by done.
    by rewrite Is_true_true.
Qed.

(** *** Encoding *)

Lemma createBitmap_step_length (total : Z) (bitmap : list Z) (idx : Z) :
  length (createBitmap_step total bitmap idx) = length bitmap.
Proof.
  unfold createBitmap_step, set. repeat case_decide; try done.
  by rewrite length_insert.
Qed.

Lemma createBitmap_step_bit (total : Z) (bitmap : list Z) (idx j : Z) :
  0 <= j → total <= 8 * Z.of_nat (length bitmap) →
  Spec.bit (createBitmap_step total bitmap idx) j
  = Spec.bit bitmap j || bool_decide (j = idx ∧ 0 <= idx < total).
Proof.
  intros Hj Hlen. unfold createBitmap_step.
  case_decide as Hidx; [|rewrite bool_decide_eq_false_2, orb_false_r; [done|tauto]].
  destruct Hidx as [Hlo Hhi]. unfold floor_div. rewrite rem_8 by done.
  assert (0 <= idx / 8 < Z.of_nat (length bitmap)) as Hbyte.
  { split; [apply Z.div_pos; lia|]. apply Z.div_lt_upper_bound; lia. }
  pose proof (Z.mod_pos_bound idx 8 ltac:(lia)) as Hpos.
  pose proof (Z.mod_pos_bound j 8 ltac:(lia)) as Hposj.
  assert (0 <= j / 8) by (apply Z.div_pos; lia).
  unfold set. case_decide; [|lia]. unfold Spec.bit.
  destruct (decide (j / 8 = idx / 8)) as [Hsame|Hother].
  - rewrite Hsame, list_lookup_insert_eq by lia. simpl.
    unfold ToUint8. change 256 with (2 ^ 8). rewrite Z.mod_pow2_bits_low by lia.
    unfold bor. rewrite Z.lor_spec, !ToInt32_testbit by lia.
    rewrite shl_1 by lia. rewrite get_lookup by lia. f_equal.
    destruct (decide (j mod 8 = idx mod 8)) as [Hbit|Hbit].
    + rewrite Hbit, Z.pow2_bits_true by lia. symmetry. apply bool_decide_eq_true_2.
      split; [|done]. by apply split_index.
    + rewrite Z.pow2_bits_false by lia. symmetry. apply bool_decide_eq_false_2.
      intros [-> _]. done.
  - rewrite list_lookup_insert_ne by lia.
    rewrite bool_decide_eq_false_2, orb_false_r; [done|]. by intros [-> _].
Qed.

Lemma createBitmap_fold_length (total : Z) (indices bitmap : list Z) :
  length (fold_left (createBitmap_step total) indices bitmap) = length bitmap.
Proof.
  revert bitmap. induction indices as [|idx indices IH]; intros bitmap; simpl; [done|].
  by rewrite IH, createBitmap_step_length.
Qed.

Lemma createBitmap_fold_bit (total : Z) (indices bitmap : list Z) (j : Z) :
  0 <= j → total <= 8 * Z.of_nat (length bitmap) →
  Spec.bit (fold_left (createBitmap_step total) indices bitmap) j
  = Spec.bit bitmap j || bool_decide (j ∈ indices ∧ 0 <= j < total).
Proof.
  intros Hj. revert bitmap.
  induction indices as [|idx indices IH]; intros bitmap Hlen; cbn [fold_left].
  - rewrite bool_decide_eq_false_2, orb_false_r; [done|]. by intros [?%elem_of_nil _].
  - rewrite IH by (by rewrite createBitmap_step_length).
    rewrite createBitmap_step_bit, <- orb_assoc by done. f_equal.
    apply eq_bool_prop_intro. rewrite orb_True, !bool_decide_spec, elem_of_cons.
    split; [intros [[-> ?]|[? ?]]|intros [[->|?] ?]]; tauto.
Qed.

Lemma zero_bit (n : nat) (j : Z) : Spec.bit (replicate n 0) j = false.
Proof.
  unfold Spec.bit. destruct (replicate n 0 !! Z.to_nat (j / 8)) as [b|] eqn:Hb; simpl.
  - apply lookup_replicate in Hb as [-> _]. apply Z.bits_0.
  - apply Z.bits_0.
Qed.

(** [createBitmap] for a member count: the array it returns, its length and
    its bits. *)
Lemma createBitmap_bits (indices : list Z) (total : Z) :
  0 <= total →
  ∃ bitmap, createBitmap indices total = Ok bitmap ∧
    Z.of_nat (length bitmap) = (total + 7) / 8 ∧
    ∀ j, 0 <= j → Spec.bit bitmap j = bool_decide (j ∈ indices ∧ 0 <= j < total).
Proof.
  intros Htotal. unfold createBitmap. cbv zeta. rewrite ceil_div_8.
  assert (0 <= (total + 7) / 8) as Hsize by (apply Z.div_pos; lia).
  unfold new_Uint8Array. case_decide; [lia|]. rewrite bind_Ok.
  eexists. split; [done|].
  assert (Z.of_nat (length (replicate (Z.to_nat ((total + 7) / 8)) 0)) = (total + 7) / 8)
    as Hlen by (rewrite length_replicate; lia).
  split.
  - by rewrite createBitmap_fold_length.
  - intros j Hj. rewrite createBitmap_fold_bit, zero_bit; [done..|].
    rewrite Hlen. Z.div_mod_to_equations. lia.
Qed.

(** *** Decoding *)

Lemma filter_ext_elem {A} (P Q : A → Prop) `{!∀ x, Decision (P x)}
    `{!∀ x, Decision (Q x)} (l : list A) :
  (∀ x, x ∈ l → P x ↔ Q x) → filter P l = filter Q l.
Proof.
  induction l as [|x l IH]; intros Hext; [done|].
  rewrite !filter_cons, IH by (intros; apply Hext; by right).
  destruct (decide (P x)) as [HP|HP], (decide (Q x)) as [HQ|HQ]; try done.
  - destruct HQ. apply Hext; [by left|done].
  - destruct HP. apply Hext; [by left|done].
Qed.

Lemma parseBitmap_bits_filter (n : nat) (bitPos bitmapByte byteIdx total : Z)
    (indices : list Z) :
  0 <= bitPos → Z.of_nat n + bitPos = 8 →
  parseBitmap_bits n bitPos bitmapByte byteIdx total indices
  = indices ++ filter (λ j, Z.testbit bitmapByte (j - 8 * byteIdx) = true)
                      (seqZ (8 * byteIdx + bitPos)
                            (Z.min (Z.of_nat n) (total - (8 * byteIdx + bitPos)))).
Proof.
  revert bitPos indices. induction n as [|n IH]; intros bitPos indices Hpos Hsum; simpl.
  - rewrite seqZ_nil by lia. by rewrite app_nil_r.
  - case_decide as Hbreak.
    + rewrite seqZ_nil by lia. by rewrite app_nil_r.
    + rewrite IH by lia. rewrite (seqZ_cons (8 * byteIdx + bitPos)) by lia.
      rewrite filter_cons.
      replace (8 * byteIdx + bitPos - 8 * byteIdx) with bitPos by lia.
      replace (Z.succ (8 * byteIdx + bitPos)) with (8 * byteIdx + (bitPos + 1)) by lia.
      replace (Z.pred (Z.min (Z.of_nat (S n)) (total - (8 * byteIdx + bitPos))))
        with (Z.min (Z.of_nat n) (total - (8 * byteIdx + (bitPos + 1)))) by lia.
      replace (byteIdx * 8 + bitPos) with (8 * byteIdx + bitPos) by lia.
      pose proof (band_bit bitmapByte bitPos ltac:(lia)) as Hmask.
      case_decide as Hset; destruct (decide (Z.testbit bitmapByte bitPos = true));
        try tauto.
      by rewrite <- (assoc_L (++)).
Qed.

Lemma parseBitmap_bytes_filter (n : nat) (byteIdx : Z) (bitmap : list Z) (total : Z)
    (indices : list Z) :
  0 <= byteIdx → Z.of_nat n + byteIdx = Z.of_nat (length bitmap) →
  parseBitmap_bytes n byteIdx bitmap total indices
  = indices ++ filter (λ j, Spec.bit bitmap j = true)
                      (seqZ (8 * byteIdx) (Z.min (8 * Z.of_nat n) (total - 8 * byteIdx))).
Proof.
  revert byteIdx indices.
  induction n as [|n IH]; intros byteIdx indices Hpos Hsum; cbn [parseBitmap_bytes].
  - rewrite seqZ_nil by lia. by rewrite app_nil_r.
  - rewrite IH by lia. rewrite parseBitmap_bits_filter by lia.
    rewrite <- (assoc_L (++)). f_equal. rewrite Z.add_0_r.
    rewrite (filter_ext_elem _ (λ j, Spec.bit bitmap j = true)).
    2:{ intros j [Hlo Hhi]%elem_of_seqZ. unfold Spec.bit.
        replace (j / 8) with byteIdx by (Z.div_mod_to_equations; lia).
        replace (j mod 8) with (j - 8 * byteIdx) by (Z.div_mod_to_equations; lia).
        by rewrite get_lookup by lia. }
    rewrite <- filter_app. f_equal.
    replace (8 * (byteIdx + 1)) with (8 * byteIdx + 8) by lia.
    destruct (decide (total - 8 * byteIdx <= 8)) as [Hshort|Hlong].
    + rewrite (seqZ_nil (8 * byteIdx + 8)) by lia. rewrite app_nil_r. f_equal. lia.
    + rewrite (Z.min_l 8) by lia. rewrite <- seqZ_app by lia. f_equal. lia.
Qed.

(** [parseBitmap] returns the members the bitmap names. *)
Lemma parseBitmap_members (bitmap : list Z) (total : Z) :
  parseBitmap bitmap total = Spec.members bitmap total.
Proof.
  unfold parseBitmap, Spec.members. rewrite parseBitmap_bytes_filter by lia.
  rewrite app_nil_l. do 2 f_equal. lia.
Qed.

Lemma elem_of_members (bitmap : list Z) (total i : Z) :
  i ∈ Spec.members bitmap total ↔
  0 <= i < total ∧ i < 8 * Z.of_nat (length bitmap) ∧ Spec.bit bitmap i = true.
Proof.
  unfold Spec.members. rewrite list_elem_of_filter, elem_of_seqZ. intuition lia.
Qed.

Lemma StronglySorted_seqZ (m n : Z) : StronglySorted Z.lt (seqZ m n).
Proof.
  remember (Z.to_nat n) as k eqn:Hk. revert m n Hk.
  induction k as [|k IH]; intros m n Hk.
  - rewrite seqZ_nil by lia. constructor.
  - rewrite seqZ_cons by lia. constructor; [apply IH; lia|].
    apply Forall_seqZ. lia.
Qed.

Lemma StronglySorted_filter {A} (R : relation A) (P : A → Prop)
    `{!∀ x, Decision (P x)} (l : list A) :
  StronglySorted R l → StronglySorted R (filter P l).
Proof.
  induction 1 as [|x l Hl IH Hx]; [constructor|].
  rewrite filter_cons. destruct (decide (P x)); [|done].
  constructor; [done|]. rewrite Forall_forall in Hx |- *.
  intros y [_ Hy]%list_elem_of_filter. by apply Hx.
Qed.

(** The members come in strictly ascending order. *)
Lemma members_ascending (bitmap : list Z) (total : Z) :
  StronglySorted Z.lt (Spec.members bitmap total).
Proof. apply StronglySorted_filter, StronglySorted_seqZ. Qed.

Lemma StronglySorted_weaken {A} (R R' : relation A) (l : list A) :
  (∀ x y, R x y → R' x y) → StronglySorted R l → StronglySorted R' l.
Proof.
  intros Himpl. induction 1 as [|x l Hl IH Hx]; constructor; [done|].
  eapply Forall_impl; [exact Hx|]. intros y. apply Himpl.
Qed.

(** The round trip: the decoder returns, in ascending order, the indices of
    the set that the encoder kept. *)
Lemma round_trip_sorted (indices : list Z) (total : Z) (bitmap : list Z) :
  NoDup indices →
  total <= 8 * Z.of_nat (length bitmap) →
  (∀ j, 0 <= j → Spec.bit bitmap j = bool_decide (j ∈ indices ∧ 0 <= j < total)) →
  Spec.members bitmap total = Spec.sorted (filter (λ i, 0 <= i < total) indices).
Proof.
  intros Hnodup Hlen Hbits. unfold Spec.sorted.
  apply (Sorted_unique Z.le).
  - apply StronglySorted_Sorted, (StronglySorted_weaken Z.lt); [lia|].
    apply members_ascending.
  - apply Sorted_merge_sort. apply _.
  - rewrite merge_sort_Permutation. apply NoDup_Permutation.
    + apply NoDup_filter, NoDup_seqZ.
    + by apply NoDup_filter.
    + intros i. rewrite elem_of_members, list_elem_of_filter. split.
      * intros (Hi & _ & Hbit). rewrite Hbits in Hbit by lia.
        by apply bool_decide_eq_true in Hbit as [? _].
      * intros [Hi Hin]. split_and!; [lia..|].
        rewrite Hbits by lia. by apply bool_decide_eq_true.
Qed.

Lemma filter_all {A} (P : A → Prop) `{!∀ x, Decision (P x)} (l : list A) :
  Forall P l → filter P l = l.
Proof.
  induction 1 as [|x l Hx _ IH]; [done|].
  by rewrite filter_cons_True, IH.
Qed.

End bitmap.

(** C1. For every message of the data model, [computeMessageDigest] returns
    the SHA-256 hash of the concatenation of the seven fields in the order
    originId, destId, nonce, senderModule, recipientModule, body, valsetId:
    strings and bytes as their variable-length length prefix followed by the
    raw bytes, the two 64-bit integers as one byte of value 8 followed by
    their eight big-endian bytes; nothing else is hashed. *)
Theorem computeMessageDigest_canonical (msg : Canonical.HyperlaneMessage) :
  Spec.message_ok msg →
  Canonical.computeMessageDigest msg
  = JS.Ok (SHA256.digest (Spec.canonical_encoding msg)).
Proof.
  intros Hok.
  rewrite computeMessageDigest_wire by (apply u64_is_integer, Hok).
  by rewrite message_canonical_encoding.
Qed.

Lemma computeMessageDigest_canonical_witness :
  Spec.message_ok Examples.demo_message ∧
  Canonical.computeMessageDigest Examples.demo_message
  = JS.Ok (SHA256.digest (Spec.canonical_encoding Examples.demo_message)).
Proof.
  assert (Spec.message_ok Examples.demo_message) as Hok.
  { split; try (unfold Spec.short; simpl; lia);
      (eexists; split; [reflexivity|lia]). }
  split; [exact Hok|].
  exact (computeMessageDigest_canonical Examples.demo_message Hok).
Defined.

(** The digest of the scenario message, as the test fixtures would record
    it. *)
Example demo_message_digest :
  Canonical.computeMessageDigest Examples.demo_message
  = JS.Ok [216; 4; 52; 175; 16; 25; 233; 135; 110; 50; 47; 248; 151; 160; 234; 20;
           9; 181; 115; 168; 77; 218; 243; 150; 208; 122; 12; 144; 96; 24; 201; 230].
Proof. vm_compute. reflexivity. Qed.




(** C2. The claim asks [getAddressBytes] for the bytes a bech32 identifier
    decodes to. The code returns a truncated hash of the identifier's text
    instead: the account and the operator identifier below carry the same 20
    payload bytes, and [getAddressBytes] gives them two different keys,
    neither of which is the payload. *)
Theorem normalizer_hashes_the_text :
  Bech32.decode Examples.account_address = Some ("org", Examples.payload) ∧
  Bech32.decode Examples.operator_address = Some ("orgvaloper", Examples.payload) ∧
  Canonical.getAddressBytes Examples.account_address
  = JS.Ok [0; 2; 170; 34; 174; 197; 113; 109; 254; 130;
           47; 186; 65; 80; 24; 115; 45; 48; 93; 140] ∧
  Canonical.getAddressBytes Examples.operator_address
  = JS.Ok [141; 11; 89; 69; 204; 217; 150; 81; 169; 235;
           205; 34; 126; 128; 95; 183; 105; 241; 33; 92].
Proof. repeat split; vm_compute; reflexivity. Qed.

(** C4 (amended). For every validator list whose operators the normalizer
    accepts and whose sort keys are pairwise distinct, and for every
    permutation of it, the two sorts agree and [computeValsetHash] returns
    the same for both: with integers for the powers, the same 32-byte
    hash. *)
Theorem valset_hash_order_independent (signers signers' : list Canonical.ValsetSigner) :
  signers ≡ₚ signers' →
  Forall (λ s, Spec.accepted (Canonical.operator s)) signers →
  NoDup (Wire.sort_key <$> signers) →
  Canonical.getSortedSignerOrder signers = Canonical.getSortedSignerOrder signers' ∧
  Canonical.computeValsetHash signers = Canonical.computeValsetHash signers' ∧
  (Forall (λ s, Spec.is_integer (Canonical.power s)) signers →
   ∃ hash, length hash = 32%nat ∧
     Canonical.computeValsetHash signers = JS.Ok hash ∧
     Canonical.computeValsetHash signers' = JS.Ok hash).
Proof.
  intros Hperm Hacc Hdistinct.
  assert (Forall (λ s, Spec.accepted (Canonical.operator s)) signers') as Hacc'.
  { by rewrite <- Hperm. }
  pose proof (sort_permutation_invariant signers signers' Hperm Hdistinct) as Hsame.
  split_and!.
  - rewrite !getSortedSignerOrder_accepted by done. by rewrite Hsame.
  - unfold Canonical.computeValsetHash.
    rewrite !Array_sort_accepted by done. by rewrite Hsame.
  - intros Hint.
    assert (Forall (λ s, Spec.is_integer (Canonical.power s)) signers') as Hint'.
    { by rewrite <- Hperm. }
    rewrite !computeValsetHash_wire by done. rewrite Hsame.
    eexists. split; [apply sha256_length|done].
Qed.

Lemma valset_hash_order_independent_witness :
  [Examples.alice; Examples.bob; Examples.carol]
    ≡ₚ [Examples.carol; Examples.alice; Examples.bob] ∧
  ∃ hash, length hash = 32%nat ∧
    Canonical.computeValsetHash [Examples.alice; Examples.bob; Examples.carol]
    = JS.Ok hash ∧
    Canonical.computeValsetHash [Examples.carol; Examples.alice; Examples.bob]
    = JS.Ok hash.
Proof.
  assert ([Examples.alice; Examples.bob; Examples.carol]
            ≡ₚ [Examples.carol; Examples.alice; Examples.bob]) as Hperm.
  { etrans; [apply perm_skip, perm_swap|apply perm_swap]. }
  split; [exact Hperm|].
  refine (proj2 (proj2 (valset_hash_order_independent _ _ Hperm _ _)) _).
  - repeat constructor; eexists; vm_compute; reflexivity.
  - apply (bool_decide_unpack _). vm_compute. reflexivity.
  - repeat constructor; eexists; reflexivity.
Defined.

(** C4, as stated, fails: two entries for one operator are hashed in their
    input order. *)
Lemma twin_entries_hash_depends_on_order :
  [Examples.twin_a; Examples.twin_b] ≡ₚ [Examples.twin_b; Examples.twin_a] ∧
  Canonical.computeValsetHash [Examples.twin_a; Examples.twin_b]
  ≠ Canonical.computeValsetHash [Examples.twin_b; Examples.twin_a].
Proof.
  split; [apply perm_swap|]. intros Heq. vm_compute in Heq. discriminate Heq.
Qed.

(** C5 (amended). For every validator list whose operators the normalizer
    accepts, duplicates included, the operations do not fail on account of
    a duplicate: [getSortedSignerOrder] returns the entries in ascending key
    order, all of them, the entries of one key in their input order, and,
    with integers for the powers, [computeValsetHash] returns the 32-byte
    hash of that sequence. *)
Theorem sort_keeps_duplicates (signers : list Canonical.ValsetSigner) :
  Forall (λ s, Spec.accepted (Canonical.operator s)) signers →
  ∃ sorted,
    Canonical.getSortedSignerOrder signers = JS.Ok sorted ∧
    sorted ≡ₚ signers ∧
    Sorted (λ a b, Spec.key_le (Wire.sort_key a) (Wire.sort_key b)) sorted ∧
    (∀ key, filter (λ s, Wire.sort_key s = key) sorted
            = filter (λ s, Wire.sort_key s = key) signers) ∧
    (Forall (λ s, Spec.is_integer (Canonical.power s)) signers →
     Canonical.computeValsetHash signers = JS.Ok (SHA256.digest (Wire.valset sorted)) ∧
     length (SHA256.digest (Wire.valset sorted)) = 32%nat).
Proof.
  intros Hacc. exists (Wire.sort Wire.compare signers).
  split_and!.
  - by apply getSortedSignerOrder_accepted.
  - apply sort_Permutation.
  - apply (sort_Sorted Wire.compare), compare_total.
  - intros key. apply sort_stable. intros a b <- Hb.
    unfold Wire.compare. rewrite Hb. by rewrite Buffer_compare_refl.
  - intros Hint. split; [by apply computeValsetHash_wire|apply sha256_length].
Qed.

Lemma sort_keeps_duplicates_witness :
  ∃ sorted,
    Canonical.getSortedSignerOrder [Examples.twin_b; Examples.alice; Examples.twin_a]
    = JS.Ok sorted ∧
    sorted ≡ₚ [Examples.twin_b; Examples.alice; Examples.twin_a] ∧
    Sorted (λ a b, Spec.key_le (Wire.sort_key a) (Wire.sort_key b)) sorted ∧
    (∀ key, filter (λ s, Wire.sort_key s = key) sorted
            = filter (λ s, Wire.sort_key s = key)
                     [Examples.twin_b; Examples.alice; Examples.twin_a]) ∧
    Canonical.computeValsetHash [Examples.twin_b; Examples.alice; Examples.twin_a]
    = JS.Ok (SHA256.digest (Wire.valset sorted)) ∧
    length (SHA256.digest (Wire.valset sorted)) = 32%nat.
Proof.
  destruct (sort_keeps_duplicates [Examples.twin_b; Examples.alice; Examples.twin_a])
    as (sorted & Hsort & Hperm & Hasc & Hstable & Hhash).
  - repeat constructor; eexists; vm_compute; reflexivity.
  - exists sorted. split_and!; [done..| |]; apply Hhash;
      repeat constructor; eexists; reflexivity.
Defined.

(** C5, as stated, fails: a list with two entries of one sort key is sorted
    and hashed, with no error. *)
Lemma duplicate_operator_not_rejected :
  Canonical.getAddressBytes (Canonical.operator Examples.twin_a)
  = Canonical.getAddressBytes (Canonical.operator Examples.twin_b) ∧
  Canonical.getSortedSignerOrder [Examples.twin_a; Examples.twin_b]
  = JS.Ok [Examples.twin_a; Examples.twin_b] ∧
  ¬ Spec.rejects (Canonical.getSortedSignerOrder [Examples.twin_a; Examples.twin_b]) ∧
  ¬ Spec.rejects (Canonical.computeValsetHash [Examples.twin_a; Examples.twin_b]).
Proof.
  split_and!.
  - reflexivity.
  - vm_compute. reflexivity.
  - intros [e He]. vm_compute in He. discriminate He.
  - intros [e He]. vm_compute in He. discriminate He.
Qed.

(** C6. For every member count and every set of member indices, decoding
    the encoded set returns the indices of the set in ascending order:
    [parseBitmap (createBitmap S totalMembers) totalMembers] is
    [sorted S]. *)
Theorem bitmap_round_trip (S : list Z) (totalMembers : Z) :
  0 <= totalMembers → NoDup S → Forall (λ i, 0 <= i < totalMembers) S →
  ∃ bitmap, Bitmap.createBitmap S totalMembers = JS.Ok bitmap ∧
    Bitmap.parseBitmap bitmap totalMembers = Spec.sorted S.
Proof.
  intros Htotal Hnodup Hrange.
  destruct (createBitmap_bits S totalMembers Htotal) as (bitmap & Hcreate & Hlen & Hbits).
  exists bitmap. split; [done|].
  rewrite parseBitmap_members.
  transitivity (Spec.sorted (filter (λ i, 0 <= i < totalMembers) S)).
  - apply round_trip_sorted; [done| |done].
    rewrite Hlen. Z.div_mod_to_equations. lia.
  - by rewrite filter_all.
Qed.

Lemma bitmap_round_trip_witness :
  ∃ bitmap, Bitmap.createBitmap [9; 0; 3; 12] 13 = JS.Ok bitmap ∧
    Bitmap.parseBitmap bitmap 13 = Spec.sorted [9; 0; 3; 12].
Proof.
  apply (bitmap_round_trip [9; 0; 3; 12] 13).
  - lia.
  - apply (bool_decide_unpack _). vm_compute. reflexivity.
  - repeat constructor; lia.
Defined.

(** C7. For every member count the encoded bitmap has [ceil(total / 8)]
    bytes, and for every index [i] below the count bit [i] is at byte
    [i / 8], position [i mod 8] from the least significant bit:
    [createBitmap] sets that bit exactly for the indices it is given, and
    [isBitSet] reads that position, in this and in every bitmap. *)
Theorem bitmap_layout (S : list Z) (totalMembers : Z) :
  0 <= totalMembers →
  (∃ bitmap, Bitmap.createBitmap S totalMembers = JS.Ok bitmap ∧
     Z.of_nat (length bitmap) = (totalMembers + 7) / 8 ∧
     totalMembers <= 8 * Z.of_nat (length bitmap) < totalMembers + 8 ∧
     ∀ i, 0 <= i < totalMembers →
       ∃ byte, bitmap !! Z.to_nat (i / 8) = Some byte ∧
         Z.testbit byte (i mod 8) = bool_decide (i ∈ S) ∧
         Bitmap.isBitSet bitmap i = Z.testbit byte (i mod 8)) ∧
  (∀ (any : list Z) (i : Z), 0 <= i →
     Bitmap.isBitSet any i
     = Z.testbit (default 0 (any !! Z.to_nat (i / 8))) (i mod 8)).
Proof.
  intros Htotal. split; [|intros any i Hi; by apply isBitSet_bit].
  destruct (createBitmap_bits S totalMembers Htotal) as (bitmap & Hcreate & Hlen & Hbits).
  exists bitmap. split_and!; [done|done|rewrite Hlen..|].
  { Z.div_mod_to_equations. lia. }
  { Z.div_mod_to_equations. lia. }
  intros i [Hlo Hhi].
  assert (0 <= i / 8 < Z.of_nat (length bitmap)) as Hbyte.
  { rewrite Hlen. Z.div_mod_to_equations. lia. }
  destruct (lookup_lt_is_Some_2 bitmap (Z.to_nat (i / 8)) ltac:(lia)) as [byte Hbyte'].
  exists byte. split; [done|].
  pose proof (Hbits i Hlo) as Hbit. unfold Spec.bit in Hbit.
  rewrite Hbyte' in Hbit. simpl in Hbit. split.
  - rewrite Hbit. apply bool_decide_ext. intuition lia.
  - rewrite isBitSet_bit by done. unfold Spec.bit. by rewrite Hbyte'.
Qed.

Lemma bitmap_layout_witness :
  (∃ bitmap, Bitmap.createBitmap [9; 0; 3; 12] 13 = JS.Ok bitmap ∧
     Z.of_nat (length bitmap) = (13 + 7) / 8 ∧
     13 <= 8 * Z.of_nat (length bitmap) < 13 + 8 ∧
     ∀ i, 0 <= i < 13 →
       ∃ byte, bitmap !! Z.to_nat (i / 8) = Some byte ∧
         Z.testbit byte (i mod 8) = bool_decide (i ∈ [9; 0; 3; 12]) ∧
         Bitmap.isBitSet bitmap i = Z.testbit byte (i mod 8)) ∧
  (∀ (any : list Z) (i : Z), 0 <= i →
     Bitmap.isBitSet any i
     = Z.testbit (default 0 (any !! Z.to_nat (i / 8))) (i mod 8)).
Proof. apply (bitmap_layout [9; 0; 3; 12] 13). lia. Defined.

(** The bytes of that bitmap: bits 0 and 3 in byte 0, bits 9 and 12 as
    positions 1 and 4 of byte 1. *)
Example createBitmap_bytes : Bitmap.createBitmap [9; 0; 3; 12] 13 = JS.Ok [9; 18].
Proof. vm_compute. reflexivity. Qed.

(** C8 (amended). An index at or above the member count is not rejected on
    encode: [createBitmap] skips it, returning what it returns without it
    and no error; on decode [parseBitmap] never returns such an index,
    whatever bits the bitmap has. *)
Theorem bitmap_out_of_range_ignored (S1 S2 : list Z) (i totalMembers : Z) :
  totalMembers <= i →
  Bitmap.createBitmap (S1 ++ i :: S2) totalMembers
  = Bitmap.createBitmap (S1 ++ S2) totalMembers ∧
  (0 <= totalMembers →
   ¬ Spec.rejects (Bitmap.createBitmap (S1 ++ i :: S2) totalMembers)) ∧
  ∀ bitmap, i ∉ Bitmap.parseBitmap bitmap totalMembers.
Proof.
  intros Hi. split_and!.
  - unfold Bitmap.createBitmap. cbv zeta.
    destruct (JS.new_Uint8Array _) as [bitmap|e]; [|done]. rewrite !bind_Ok.
    rewrite !fold_left_app. cbn [fold_left]. do 2 f_equal.
    unfold Bitmap.createBitmap_step at 1. case_decide; [lia|done].
  - intros Htotal [e He].
    destruct (createBitmap_bits (S1 ++ i :: S2) totalMembers Htotal) as (bitmap & Hok & _).
    congruence.
  - intros bitmap. rewrite parseBitmap_members, elem_of_members. lia.
Qed.

Lemma bitmap_out_of_range_ignored_witness :
  Bitmap.createBitmap ([0; 3] ++ 9 :: [5]) 8 = Bitmap.createBitmap ([0; 3] ++ [5]) 8 ∧
  (0 <= 8 → ¬ Spec.rejects (Bitmap.createBitmap ([0; 3] ++ 9 :: [5]) 8)) ∧
  ∀ bitmap, 9 ∉ Bitmap.parseBitmap bitmap 8.
Proof. apply (bitmap_out_of_range_ignored [0; 3] [5] 9 8). lia. Defined.

(** C8, as stated, fails: index 9 with 8 members is not rejected, the
    encoder returns a bitmap. *)
Lemma large_index_not_rejected :
  8 <= 9 ∧
  Bitmap.createBitmap [9] 8 = JS.Ok [0] ∧
  ¬ Spec.rejects (Bitmap.createBitmap [9] 8).
Proof.
  split_and!; [lia|vm_compute; reflexivity|].
  intros [e He]. vm_compute in He. discriminate He.
Qed.

(** C10. For every bitmap and every non-negative index whose byte position
    [i / 8] is at or beyond the bitmap's length, [isBitSet] returns false,
    and [setBit] and [clearBit] leave the bitmap as it is. *)
Theorem bitmap_access_beyond_length (bitmap : list Z) (i : Z) :
  0 <= i → Z.of_nat (length bitmap) <= i / 8 →
  Bitmap.isBitSet bitmap i = false ∧
  Bitmap.setBit bitmap i = bitmap ∧
  Bitmap.clearBit bitmap i = bitmap.
Proof.
  intros Hi Hout. unfold Bitmap.isBitSet, Bitmap.setBit, Bitmap.clearBit, JS.floor_div.
  cbv zeta. repeat case_decide; try done; lia.
Qed.

Lemma bitmap_access_beyond_length_witness :
  Bitmap.isBitSet [255; 255] 16 = false ∧
  Bitmap.setBit [255; 255] 16 = [255; 255] ∧
  Bitmap.clearBit [255; 255] 16 = [255; 255].
Proof. apply (bitmap_access_beyond_length [255; 255] 16); [lia|]. vm_compute. discriminate. Defined.

(** ** The signing daemon *)
Section signing.
Import Go Keys Daemon.
Context {PrivateKey : Type}.
Context (crypto_ToECDSA : list Z → result PrivateKey).
Context (crypto_Sign : list Z → PrivateKey → result (list Z)).
Context (base64_EncodeToString : list Z → string).

Lemma SignDigest_wrong_length (key : PrivateKey) (digest : list Z) :
  length digest ≠ 32%nat →
  SignDigest crypto_Sign key digest
  = Err ("digest must be exactly 32 bytes, got " +:+ pretty (length digest)).
Proof. intros. unfold SignDigest. by case_decide. Qed.

Lemma SignDigest_error_iff (key : PrivateKey) (digest : list Z) :
  (∃ msg, SignDigest crypto_Sign key digest = Err msg) ↔
  length digest ≠ 32%nat ∨ ∃ e, crypto_Sign digest key = Err e.
Proof.
  unfold SignDigest. case_decide as Hlen.
  - split; [by left|by eexists].
  - destruct (crypto_Sign digest key) as [signature|e].
    + split; [by intros [? ?]|]. intros [?|[? ?]]; done.
    + split; [|by eexists]. intros _. right. by eexists.
Qed.

(** The length check of the handler comes before the key store is read. *)
Lemma handleSign_wrong_length (s : Server) (r : Request) (req : SignRequest)
    (digest : list Z) :
  Method r = "POST" → Body r = Some req →
  OperatorBech32 req ≠ EmptyString → DigestHex req ≠ EmptyString →
  hex_DecodeString (DigestHex req) = Val digest → length digest ≠ 32%nat →
  handleSign crypto_ToECDSA crypto_Sign base64_EncodeToString s r
  = sendErrorResponse 400 "digest must be exactly 32 bytes".
Proof.
  intros Hmethod Hbody Hop Hhex Hdecode Hlen. unfold handleSign.
  rewrite Hbody, Hdecode. by repeat case_decide.
Qed.

Lemma handleSign_error_iff (s : Server) (r : Request) :
  Signing.is_error (handleSign crypto_ToECDSA crypto_Sign base64_EncodeToString s r) ↔
  ¬ Signing.preconditions crypto_ToECDSA crypto_Sign s r.
Proof.
  unfold handleSign, Signing.preconditions, Signing.is_error, sendErrorResponse.
  (* an error branch: the reply is an error, and the branch condition refutes
     the preconditions *)
  assert (∀ P : Prop, ¬ P → (True ↔ ¬ P)) as Hplain by tauto.
  assert (∀ (P : Prop) (code : nat), code ≠ 200%nat → ¬ P →
            (code ≠ 200%nat ∧ EmptyString = EmptyString ↔ ¬ P)) as Hjson by tauto.
  case_decide as Hmethod; simpl.
  { apply Hplain. by intros [? _]. }
  destruct (Body r) as [req|] eqn:Hbody; simpl.
  2:{ apply Hjson; [done|]. intros (_ & ? & ? & ? & ? & ? & _). congruence. }
  case_decide as Hop; simpl.
  { apply Hjson; [done|]. intros (_ & ? & ? & ? & ? & ? & ? & _). congruence. }
  case_decide as Hhex; simpl.
  { apply Hjson; [done|]. intros (_ & ? & ? & ? & ? & ? & ? & ? & _). congruence. }
  destruct (hex_DecodeString (DigestHex req)) as [digest|e] eqn:Hdecode; simpl.
  2:{ apply Hjson; [done|]. intros (_ & ? & ? & ? & ? & ? & ? & ? & ? & _). congruence. }
  case_decide as Hlen; simpl.
  { apply Hjson; [done|].
    intros (_ & ? & ? & ? & ? & ? & ? & ? & ? & ? & _). congruence. }
  destruct (GetPrivateKey _ _ _) as [privateKey|e] eqn:Hkey; simpl.
  2:{ apply Hjson; [done|].
      intros (_ & ? & ? & ? & ? & ? & ? & ? & ? & ? & ? & _). congruence. }
  unfold SignDigest. case_decide; [done|].
  destruct (crypto_Sign digest privateKey) as [signature|e] eqn:Hsign; simpl.
  - split; [by intros [? _]|]. intros Hpre. destruct Hpre.
    split; [done|]. by exists req, digest, privateKey, signature.
  - apply Hjson; [done|].
    intros (_ & ? & ? & ? & ? & ? & ? & ? & ? & ? & ? & ?). congruence.
Qed.

(** C9. The signing operation rejects every digest that is not 32 bytes
    long. [SignDigest] returns an error for it, and returns an error exactly
    when the length is wrong or the signing primitive fails. The [/sign]
    handler answers 400 for it whatever the key store holds and whatever the
    signing primitive would return, and its reply is an error without a
    signature exactly when a precondition fails. *)
Theorem sign_rejects_other_lengths :
  (∀ (key : PrivateKey) (digest : list Z),
     length digest ≠ 32%nat →
     SignDigest crypto_Sign key digest
     = Err ("digest must be exactly 32 bytes, got " +:+ pretty (length digest))) ∧
  (∀ (key : PrivateKey) (digest : list Z),
     (∃ msg, SignDigest crypto_Sign key digest = Err msg) ↔
     length digest ≠ 32%nat ∨ ∃ e, crypto_Sign digest key = Err e) ∧
  (∀ (s : Server) (r : Request) (req : SignRequest) (digest : list Z),
     Method r = "POST" → Body r = Some req →
     OperatorBech32 req ≠ EmptyString → DigestHex req ≠ EmptyString →
     hex_DecodeString (DigestHex req) = Val digest → length digest ≠ 32%nat →
     handleSign crypto_ToECDSA crypto_Sign base64_EncodeToString s r
     = sendErrorResponse 400 "digest must be exactly 32 bytes") ∧
  (∀ (s : Server) (r : Request),
     Signing.is_error
       (handleSign crypto_ToECDSA crypto_Sign base64_EncodeToString s r) ↔
     ¬ Signing.preconditions crypto_ToECDSA crypto_Sign s r).
Proof.
  split_and!.
  - apply SignDigest_wrong_length.
  - apply SignDigest_error_iff.
  - apply handleSign_wrong_length.
  - apply handleSign_error_iff.
Qed.

End signing.

Lemma sign_rejects_other_lengths_witness :
  Keys.SignDigest Examples.toy_Sign [10; 11] [1; 2; 3]
  = Go.Err "digest must be exactly 32 bytes, got 3" ∧
  Daemon.handleSign Examples.toy_ToECDSA Examples.toy_Sign Examples.toy_base64
    Examples.toy_server Examples.short_request
  = Daemon.sendErrorResponse 400 "digest must be exactly 32 bytes".
Proof.
  pose proof (sign_rejects_other_lengths Examples.toy_ToECDSA Examples.toy_Sign
                Examples.toy_base64) as (Hsign & _ & Hhandle & _).
  split.
  - apply (Hsign [10; 11] [1; 2; 3]). vm_compute. discriminate.
  - apply (Hhandle Examples.toy_server Examples.short_request
             {| Daemon.OperatorBech32 := "orgvaloper1abc"; Daemon.DigestHex := "010203" |}
             [1; 2; 3]); try reflexivity; vm_compute; discriminate.
Defined.

(** A digest of 32 bytes, for comparison, is signed. *)
Example handleSign_signs_32_bytes :
  Daemon.handleSign Examples.toy_ToECDSA Examples.toy_Sign Examples.toy_base64
    Examples.toy_server
    {| Daemon.Method := "POST";
       Daemon.Body := Some {| Daemon.OperatorBech32 := "orgvaloper1abc";
                              Daemon.DigestHex :=
    "000102030405060708090a0b0c0d0e0f101112131415161718191a1b1c1d1e1f" |} |}
  = (Daemon.Json 200 {| Daemon.Signature := "34"; Daemon.Error := "" |},
     ["Signed digest for operator orgvaloper1abc"]).
Proof. vm_compute. reflexivity. Qed.

(* ===================================================================== *)
(** * Part IV: further properties of the code *)
(* ===================================================================== *)

(** ** Length prefixes *)
Section prefixes.
Import JS Canonical.

(** Whatever the value, the loop of [encodeUvarint] writes the low group of
    the value and then the variable-length integer of what [>>>] leaves. *)
Lemma encodeUvarint_large (n : Z) :
  128 <= n →
  encodeUvarint n = (n mod 128 + 128) :: Spec.uvarint (n mod 4294967296 / 128).
Proof.
  intros Hn. unfold encodeUvarint.
  destruct (encodeUvarint_while n []) as [value result] eqn:Heq.
  rewrite encodeUvarint_while_equation_1 in Heq.
  destruct (decide (128 <= n)) as [?|?]; [|lia]. simpl in Heq.
  rewrite continuation_byte in Heq.
  assert (ushr n 7 = n mod 4294967296 / 128) as Hshift.
  { unfold ushr, ToUint32. change (Z.land (7 mod 4294967296) 31) with 7.
    by rewrite Z.shiftr_div_pow2 by lia. }
  rewrite Hshift in Heq.
  pose proof (Z.mod_pos_bound n 4294967296 ltac:(lia)) as Hmod.
  assert (0 <= n mod 4294967296 / 128 < 4294967296) as Hrest.
  { split; [apply Z.div_pos; lia|]. apply Z.div_lt_upper_bound; lia. }
  apply encodeUvarint_while_uvarint in Heq; [|done]. rewrite Heq.
  apply ToUint8_bytes. constructor.
  - pose proof (Z.mod_pos_bound n 128 ltac:(lia)). lia.
  - apply uvarint_bytes. lia.
Qed.

(** X1. The length prefix [encodeUvarint] writes decodes to the value it
    was given exactly when the value is below 2^32. *)
Theorem encodeUvarint_decodes_iff (n : Z) :
  0 <= n →
  Spec.uvarint_value (encodeUvarint n) = n ↔ n < 2 ^ 32.
Proof.
  intros Hn. change (2 ^ 32) with 4294967296. split.
  - intros Hvalue. destruct (decide (n < 4294967296)) as [|Hbig]; [done|exfalso].
    rewrite encodeUvarint_large in Hvalue by lia.
    cbn [Spec.uvarint_value foldr] in Hvalue.
    change (foldr _ 0 ?l) with (Spec.uvarint_value l) in Hvalue.
    pose proof (Z.mod_pos_bound n 4294967296 ltac:(lia)) as Hmod.
    rewrite uvarint_value_uvarint in Hvalue by (apply Z.div_pos; lia).
    replace ((n mod 128 + 128) mod 128) with (n mod 128) in Hvalue.
    2:{ rewrite <- (Z.mul_1_l 128) at 3. by rewrite Z_mod_plus_full, Z.mod_mod by lia. }
    assert (n mod 4294967296 / 128 < 33554432)
      by (apply Z.div_lt_upper_bound; lia).
    pose proof (Z.div_mod n 128 ltac:(lia)).
    assert (33554432 <= n / 128) by (apply Z.div_le_lower_bound; lia).
    lia.
  - intros Hsmall. rewrite encodeUvarint_uvarint by lia.
    by apply uvarint_value_uvarint.
Qed.

Lemma encodeUvarint_decodes_iff_witness :
  Spec.uvarint_value (encodeUvarint 300) = 300 ↔ 300 < 2 ^ 32.
Proof. apply (encodeUvarint_decodes_iff 300). lia. Defined.

(** A variable-length integer ends where its first byte without the high bit
    stands, so what follows it can be told apart from it. *)
Lemma uvarint_prefix_free (n m : Z) (x y : list Z) :
  0 <= n → 0 <= m →
  Spec.uvarint n ++ x = Spec.uvarint m ++ y → n = m ∧ x = y.
Proof.
  revert m. induction n as [n IH] using (well_founded_induction (Z.lt_wf 0)).
  intros m Hn Hm. simp uvarint.
  destruct (decide (n < 128)) as [?|?], (decide (m < 128)) as [?|?]; simpl.
  - by intros [= -> ->].
  - intros [= Hhead _]. pose proof (Z.mod_pos_bound m 128 ltac:(lia)). lia.
  - intros [= Hhead _]. pose proof (Z.mod_pos_bound n 128 ltac:(lia)). lia.
  - intros [= Hhead Htail].
    apply IH in Htail as [Hdiv ->].
    + split; [|done].
      rewrite (Z.div_mod n 128), (Z.div_mod m 128) by lia. lia.
    + split; [apply Z.div_pos; lia|apply Z.div_lt; lia].
    + apply Z.div_pos; lia.
    + apply Z.div_pos; lia.
Qed.

Lemma field_prefix_free (a b x y : list Z) :
  Spec.short a → Spec.short b →
  Wire.field a ++ x = Wire.field b ++ y → a = b ∧ x = y.
Proof.
  intros Ha Hb. rewrite !field_length_prefixed by done.
  unfold Spec.length_prefixed. rewrite <- !(assoc_L (++)).
  intros [Hlen Hrest]%uvarint_prefix_free; [|lia..].
  apply app_inj_1 in Hrest; [done|lia].
Qed.

(** X2. A chunk written by [encodeWithLength] can be read back from the
    front of any byte string that starts with it: two chunks followed by
    anything are equal only when the data and the rest are equal. *)
Theorem encodeWithLength_unambiguous (a b x y chunk_a chunk_b : list Z) :
  Spec.short a → Spec.short b →
  encodeWithLength a = Ok chunk_a → encodeWithLength b = Ok chunk_b →
  chunk_a ++ x = chunk_b ++ y → a = b ∧ x = y.
Proof.
  intros Ha Hb. rewrite !encodeWithLength_field. intros [= <-] [= <-].
  by apply field_prefix_free.
Qed.

Lemma encodeWithLength_unambiguous_witness :
  [1; 2] = [1; 2] ∧ [7] = [7].
Proof.
  apply (encodeWithLength_unambiguous [1; 2] [1; 2] [7] [7] [2; 1; 2] [2; 1; 2]);
    try (vm_compute; reflexivity).
Defined.

End prefixes.

(** ** The bytes under the message digest *)
Section message_bytes.
Import JS Canonical.

Lemma uint64_inj (n m : Z) :
  0 <= n < 2 ^ 64 → 0 <= m < 2 ^ 64 → Wire.uint64 n = Wire.uint64 m → n = m.
Proof.
  intros Hn Hm. rewrite !uint64_u64_be by done. intros Heq.
  by rewrite <- (be_value_u64_be n), <- (be_value_u64_be m), Heq.
Qed.

Lemma uint64_short (n : Z) : Spec.short (Wire.uint64 n).
Proof. unfold Spec.short. by change (length (Wire.uint64 n)) with 8%nat. Qed.

(** X3. The byte string that [computeMessageDigest] hashes determines the
    seven fields as they are encoded: two messages of the data model with
    the same bytes under the hash have the same nonce, the same valsetId,
    the same body, and strings with the same UTF-8 bytes. *)
Theorem message_bytes_injective (m1 m2 : HyperlaneMessage) :
  Spec.message_ok m1 → Spec.message_ok m2 →
  computeMessageDigest m1 = Ok (SHA256.digest (Wire.message m1)) ∧
  computeMessageDigest m2 = Ok (SHA256.digest (Wire.message m2)) ∧
  (Wire.message m1 = Wire.message m2 →
   TextEncoder_encode (originChainId m1) = TextEncoder_encode (originChainId m2) ∧
   TextEncoder_encode (destChainId m1) = TextEncoder_encode (destChainId m2) ∧
   nonce m1 = nonce m2 ∧
   TextEncoder_encode (senderModule m1) = TextEncoder_encode (senderModule m2) ∧
   TextEncoder_encode (recipientModule m1) = TextEncoder_encode (recipientModule m2) ∧
   body m1 = body m2 ∧
   valsetId m1 = valsetId m2).
Proof.
  intros Hok1 Hok2.
  rewrite !computeMessageDigest_wire by (apply u64_is_integer; (apply Hok1 || apply Hok2)).
  split_and!; [done..|].
  destruct Hok1 as [Ho1 Hd1 (n1 & Hn1 & Hr1) Hs1 Hp1 Hb1 (v1 & Hv1 & Hw1)].
  destruct Hok2 as [Ho2 Hd2 (n2 & Hn2 & Hr2) Hs2 Hp2 Hb2 (v2 & Hv2 & Hw2)].
  unfold Wire.message. rewrite Hn1, Hn2, Hv1, Hv2. cbn [Spec.integer_of].
  intros Heq.
  apply field_prefix_free in Heq as [Ho Heq]; [|done..].
  apply field_prefix_free in Heq as [Hd Heq]; [|done..].
  apply field_prefix_free in Heq as [Hn%uint64_inj Heq];
    [|done|done|apply uint64_short..].
  apply field_prefix_free in Heq as [Hs Heq]; [|done..].
  apply field_prefix_free in Heq as [Hp Heq]; [|done..].
  apply field_prefix_free in Heq as [Hb Heq]; [|done..].
  rewrite <- (app_nil_r (Wire.field (Wire.uint64 v1))) in Heq.
  rewrite <- (app_nil_r (Wire.field (Wire.uint64 v2))) in Heq.
  apply field_prefix_free in Heq as [Hv%uint64_inj _];
    [|done|done|apply uint64_short..].
  by subst.
Qed.

Lemma message_bytes_injective_witness :
  computeMessageDigest Examples.demo_message
  = Ok (SHA256.digest (Wire.message Examples.demo_message)) ∧
  computeMessageDigest Examples.next_message
  = Ok (SHA256.digest (Wire.message Examples.next_message)) ∧
  (Wire.message Examples.demo_message = Wire.message Examples.next_message →
   TextEncoder_encode (originChainId Examples.demo_message)
   = TextEncoder_encode (originChainId Examples.next_message) ∧
   TextEncoder_encode (destChainId Examples.demo_message)
   = TextEncoder_encode (destChainId Examples.next_message) ∧
   nonce Examples.demo_message = nonce Examples.next_message ∧
   TextEncoder_encode (senderModule Examples.demo_message)
   = TextEncoder_encode (senderModule Examples.next_message) ∧
   TextEncoder_encode (recipientModule Examples.demo_message)
   = TextEncoder_encode (recipientModule Examples.next_message) ∧
   body Examples.demo_message = body Examples.next_message ∧
   valsetId Examples.demo_message = valsetId Examples.next_message).
Proof.
  apply (message_bytes_injective Examples.demo_message Examples.next_message).
  - split; try (unfold Spec.short; simpl; lia); (eexists; split; [reflexivity|lia]).
  - split; try (unfold Spec.short; simpl; lia); (eexists; split; [reflexivity|lia]).
Defined.

End message_bytes.

(** ** Splitting strings: the normalizer and the route *)
Section splitting.
Import JS Canonical.

Lemma list_ascii_of_string_app (s t : string) :
  list_ascii_of_string (s +:+ t) = list_ascii_of_string s ++ list_ascii_of_string t.
Proof. induction s as [|c s IH]; simpl; [done|]. by rewrite IH. Qed.

Lemma split_go_length (sep : ascii) (cur l : list ascii) :
  length (split_go sep cur l) = S (length (filter (λ x, x = sep) l)).
Proof.
  revert cur. induction l as [|c l IH]; intros cur; simpl; [done|].
  rewrite filter_cons. destruct (decide (c = sep)); simpl; by rewrite IH.
Qed.

Lemma split_length (s : string) (sep : ascii) :
  length (split s sep) = S (Spec.occurrences sep s).
Proof. apply split_go_length. Qed.

Lemma split_go_whole (sep : ascii) (cur l : list ascii) :
  sep ∉ l → split_go sep cur l = [string_of_list_ascii (rev cur ++ l)].
Proof.
  revert cur. induction l as [|c l IH]; intros cur Hsep; simpl.
  - by rewrite app_nil_r.
  - apply not_elem_of_cons in Hsep as [Hc Hl].
    destruct (decide (c = sep)); [congruence|].
    rewrite IH by done. simpl. by rewrite <- (assoc_L (++)).
Qed.

Lemma split_go_first (sep : ascii) (cur l rest : list ascii) :
  sep ∉ l →
  split_go sep cur (l ++ sep :: rest)
  = string_of_list_ascii (rev cur ++ l) :: split_go sep [] rest.
Proof.
  revert cur. induction l as [|c l IH]; intros cur Hsep; simpl.
  - destruct (decide (sep = sep)); [|done]. by rewrite app_nil_r.
  - apply not_elem_of_cons in Hsep as [Hc Hl].
    destruct (decide (c = sep)); [congruence|].
    rewrite IH by done. simpl. by rewrite <- (assoc_L (++)).
Qed.

(** Splitting at a separator that the first part does not contain. *)
Lemma split_first (s t : string) (sep : ascii) :
  sep ∉ list_ascii_of_string s →
  split (s +:+ String sep t) sep = s :: split t sep.
Proof.
  intros Hsep. unfold split. rewrite list_ascii_of_string_app. simpl.
  rewrite split_go_first by done. simpl. by rewrite string_of_list_ascii_of_string.
Qed.

Lemma split_whole (s : string) (sep : ascii) :
  sep ∉ list_ascii_of_string s → split s sep = [s].
Proof.
  intros Hsep. unfold split. rewrite split_go_whole by done. simpl.
  by rewrite string_of_list_ascii_of_string.
Qed.

(** What [getAddressBytes] returns when the identifier has two parts. *)
Lemma getAddressBytes_parts (bech32Addr hrp data : string) :
  split bech32Addr "1" = [hrp; data] →
  getAddressBytes bech32Addr = Ok (take 20 (SHA256.digest (TextEncoder_encode data))).
Proof.
  intros Hsplit. unfold getAddressBytes. rewrite Hsplit. cbn [length].
  case_decide; [done|].
  change (default EmptyString ([hrp; data] !! 1%nat)) with data.
  change (new_Uint8Array 20) with (new_Uint8Array (Z.of_nat 20)).
  rewrite new_Uint8Array_nat, bind_Ok. unfold sha256.
  set (hash := take 20 _).
  assert (length hash = 20%nat) as Hlen.
  { unfold hash. rewrite length_take, sha256_length. lia. }
  pose proof (TypedArray_set_fresh hash 0) as Hset.
  rewrite Hlen in Hset. change (20 + 0)%nat with 20%nat in Hset.
  change (replicate 0 0) with (@nil Z) in Hset. by rewrite Hset, app_nil_r.
Qed.

(** X4. [getAddressBytes] accepts an identifier exactly when the character
    ['1'] occurs in it once: it then returns 20 bytes, and otherwise throws
    the error that names the identifier. No other check is made. *)
Theorem getAddressBytes_accepts_one_separator (bech32Addr : string) :
  (Spec.occurrences "1" bech32Addr = 1%nat →
   ∃ key, getAddressBytes bech32Addr = Ok key ∧ length key = 20%nat) ∧
  (Spec.occurrences "1" bech32Addr ≠ 1%nat →
   getAddressBytes bech32Addr
   = Throw (Error ("Invalid bech32 address: " +:+ bech32Addr))).
Proof.
  pose proof (split_length bech32Addr "1") as Hlen. split; intros Hocc.
  - destruct (split bech32Addr "1") as [|hrp [|data [|? ?]]] eqn:Hsplit;
      simpl in Hlen; try lia.
    rewrite (getAddressBytes_parts _ _ _ Hsplit). eexists. split; [done|].
    rewrite length_take, sha256_length. lia.
  - unfold getAddressBytes. case_decide; [done|lia].
Qed.

Lemma getAddressBytes_accepts_one_separator_witness :
  (Spec.occurrences "1" "orgvaloper1abc" = 1%nat →
   ∃ key, getAddressBytes "orgvaloper1abc" = Ok key ∧ length key = 20%nat) ∧
  (Spec.occurrences "1" "orgvaloper1abc" ≠ 1%nat →
   getAddressBytes "orgvaloper1abc"
   = Throw (Error ("Invalid bech32 address: " +:+ "orgvaloper1abc"))).
Proof. exact (getAddressBytes_accepts_one_separator "orgvaloper1abc"). Defined.

(** X5. [getAddressBytes] does not read the text before the separator: two
    identifiers with the same text after it get the same key, whatever
    their prefixes. *)
Theorem getAddressBytes_ignores_prefix (hrp hrp' data : string) :
  "1"%char ∉ list_ascii_of_string hrp →
  "1"%char ∉ list_ascii_of_string hrp' →
  "1"%char ∉ list_ascii_of_string data →
  getAddressBytes (hrp +:+ "1" +:+ data)
  = Ok (take 20 (SHA256.digest (TextEncoder_encode data))) ∧
  getAddressBytes (hrp' +:+ "1" +:+ data) = getAddressBytes (hrp +:+ "1" +:+ data).
Proof.
  intros Hhrp Hhrp' Hdata.
  assert (∀ p, "1"%char ∉ list_ascii_of_string p →
            getAddressBytes (p +:+ "1" +:+ data)
            = Ok (take 20 (SHA256.digest (TextEncoder_encode data)))) as Hkey.
  { intros p Hp. apply (getAddressBytes_parts _ p data).
    change (p +:+ "1" +:+ data) with (p +:+ String "1" data).
    by rewrite split_first, split_whole by done. }
  by rewrite !Hkey by done.
Qed.

Lemma getAddressBytes_ignores_prefix_witness :
  getAddressBytes ("orgvaloper" +:+ "1" +:+ "abc")
  = Ok (take 20 (SHA256.digest (TextEncoder_encode "abc"))) ∧
  getAddressBytes ("dstvaloper" +:+ "1" +:+ "abc")
  = getAddressBytes ("orgvaloper" +:+ "1" +:+ "abc").
Proof.
  apply (getAddressBytes_ignores_prefix "orgvaloper" "dstvaloper" "abc");
    apply (bool_decide_unpack _); vm_compute; reflexivity.
Defined.

(** X6. A route string splits back into its three parts when none of them
    contains the separator ['|']. *)
Theorem formatRoute_split (origin dest recipientModule : string) :
  "|"%char ∉ list_ascii_of_string origin →
  "|"%char ∉ list_ascii_of_string dest →
  "|"%char ∉ list_ascii_of_string recipientModule →
  split (formatRoute origin dest recipientModule) "|" = [origin; dest; recipientModule].
Proof.
  intros Ho Hd Hr. unfold formatRoute.
  change (origin +:+ "|" +:+ dest +:+ "|" +:+ recipientModule)
    with (origin +:+ String "|" (dest +:+ String "|" recipientModule)).
  by rewrite !split_first, split_whole by done.
Qed.

Lemma formatRoute_split_witness :
  split (formatRoute "orgchain" "dstchain" "demo") "|" = ["orgchain"; "dstchain"; "demo"].
Proof.
  apply (formatRoute_split "orgchain" "dstchain" "demo");
    apply (bool_decide_unpack _); vm_compute; reflexivity.
Defined.

Lemma append_assoc (s t u : string) : (s +:+ t) +:+ u = s +:+ (t +:+ u).
Proof.
  induction s as [|c s IH]; [done|].
  change (String c ((s +:+ t) +:+ u) = String c (s +:+ t +:+ u)). by f_equal.
Qed.

Lemma append_longer (s t : string) : s +:+ "|" +:+ t ≠ s.
Proof.
  induction s as [|c s IH]; [done|].
  change (String c (s +:+ "|" +:+ t) ≠ String c s). by intros [= ?].
Qed.

(** X7. The route string does not keep the boundaries of its parts: a
    separator inside the origin or the destination gives the route of
    another triple. *)
Theorem formatRoute_collides (origin middle dest recipientModule : string) :
  formatRoute (origin +:+ "|" +:+ middle) dest recipientModule
  = formatRoute origin (middle +:+ "|" +:+ dest) recipientModule ∧
  (origin +:+ "|" +:+ middle, dest) ≠ (origin, middle +:+ "|" +:+ dest).
Proof.
  split.
  - unfold formatRoute. by rewrite !append_assoc.
  - intros [= Hori _]. by apply append_longer in Hori.
Qed.

End splitting.

(** ** Refused operators, and sorting twice *)
Section refused.
Import JS Canonical.

Abbreviation refused := (λ s : ValsetSigner, Spec.rejects (getAddressBytes (operator s))).

Lemma rejects_bind {A B} (m : result A) (f : A → result B) :
  Spec.rejects (m ≫= f) ↔ Spec.rejects m ∨ ∃ a, m = Ok a ∧ Spec.rejects (f a).
Proof.
  destruct m as [a|e]; simpl.
  - split; [intros ?; right; by exists a|]. intros [[? ?]|(? & [= <-] & ?)]; done.
  - split; [intros _; left; by exists e|]. intros _. by exists e.
Qed.

Lemma not_rejects_Ok {A} (a : A) : ¬ Spec.rejects (Ok a).
Proof. by intros [e ?]. Qed.

Lemma accepted_or_refused (s : ValsetSigner) :
  Spec.accepted (operator s) ∨ refused s.
Proof.
  unfold Spec.accepted, Spec.rejects.
  destruct (getAddressBytes (operator s)) as [key|e]; [left|right]; by eexists.
Qed.


Lemma all_accepted_or_refused (l : list ValsetSigner) :
  Forall (λ s, Spec.accepted (operator s)) l ∨ Exists refused l.
Proof.
  induction l as [|s l [IH|IH]].
  - left. constructor.
  - destruct (accepted_or_refused s); [left|right]; by constructor.
  - right. by constructor.
Qed.

Lemma compareSigners_rejects (a b : ValsetSigner) :
  Spec.rejects (compareSigners a b) ↔ refused a ∨ refused b.
Proof.
  unfold compareSigners. rewrite rejects_bind. split.
  - intros [?|(addrA & _ & Hb)]; [by left|right].
    apply rejects_bind in Hb as [?|(addrB & _ & Hok)]; [done|].
    by apply not_rejects_Ok in Hok.
  - intros [?|Hb]; [by left|].
    destruct (accepted_or_refused a) as [[addrA Ha]|?]; [right|by left].
    exists addrA. split; [done|]. apply rejects_bind. by left.
Qed.

(** Whatever the comparator does, a sort that returns has kept every
    element. *)
Lemma sort_insert_Permutation {A} (cmp : A → A → result Z) (x : A) (l s : list A) :
  sort_insert cmp x l = Ok s → s ≡ₚ x :: l.
Proof.
  revert s. induction l as [|y l IH]; intros s; simpl.
  - by intros [= <-].
  - destruct (cmp x y) as [c|e]; simpl; [|done]. case_decide.
    + by intros [= <-].
    + destruct (sort_insert cmp x l) as [rest|e]; simpl; [|done].
      intros [= <-]. by rewrite (IH rest), Permutation_swap.
Qed.

Lemma Array_sort_Permutation {A} (cmp : A → A → result Z) (l s : list A) :
  Array_sort cmp l = Ok s → s ≡ₚ l.
Proof.
  revert s. induction l as [|x l IH]; intros s; simpl.
  - by intros [= <-].
  - destruct (Array_sort cmp l) as [sorted|e]; simpl; [|done].
    intros ->%sort_insert_Permutation. by rewrite (IH sorted).
Qed.

Lemma Array_sort_refused (l : list ValsetSigner) :
  (2 <= length l)%nat → Exists refused l → Spec.rejects (Array_sort compareSigners l).
Proof.
  induction l as [|x l IH]; simpl; [lia|]. intros Hlen Hex.
  apply rejects_bind.
  destruct (Array_sort compareSigners l) as [sorted|e] eqn:Hsort; [right|left; by exists e].
  exists sorted. split; [done|].
  pose proof (Array_sort_Permutation _ _ _ Hsort) as Hperm.
  destruct sorted as [|y rest].
  { apply Permutation_nil_l in Hperm. subst. simpl in Hlen. lia. }
  simpl. apply rejects_bind. left. apply compareSigners_rejects.
  apply Exists_cons in Hex as [?|Hex]; [by left|].
  destruct l as [|z [|z' l']].
  - simpl in Hlen. lia.
  - apply Permutation_singleton_r in Hperm as [= -> ->].
    right. by apply Exists_cons in Hex as [?|?%Exists_nil].
  - destruct (IH ltac:(simpl; lia) Hex) as [e He]. congruence.
Qed.

(** X8. [getSortedSignerOrder] throws exactly when the list has at least
    two entries and one of them has an operator the normalizer refuses; a
    list of one entry is returned without a look at its operator. *)
Theorem getSortedSignerOrder_rejects_iff (signers : list ValsetSigner) :
  Spec.rejects (getSortedSignerOrder signers) ↔
  (2 <= length signers)%nat ∧ Exists refused signers.
Proof.
  unfold getSortedSignerOrder. split.
  - intros Hrej. destruct (all_accepted_or_refused signers) as [Hacc|Hex].
    { rewrite Array_sort_accepted in Hrej by done. by apply not_rejects_Ok in Hrej. }
    split; [|done]. destruct signers as [|x [|y l]]; simpl; [..|lia].
    + by apply not_rejects_Ok in Hrej.
    + by apply not_rejects_Ok in Hrej.
  - intros [? ?]. by apply Array_sort_refused.
Qed.




(** A power that is no number: the hash is refused with the error of
    [BigInt], though every operator is accepted. *)
Example computeValsetHash_power_NaN :
  computeValsetHash [Examples.alice; Examples.dave]
  = Throw (RangeError
      "The number NaN cannot be converted to a BigInt because it is not an integer").
Proof. vm_compute. reflexivity. Qed.

(** Sorting a sorted list changes nothing. *)
Lemma sort_sorted {A} (cmp : A → A → Z) (l : list A) :
  Sorted (λ x y, cmp x y <= 0) l → Wire.sort cmp l = l.
Proof.
  induction 1 as [|x l Hl IH Hhd]; simpl; [done|]. rewrite IH.
  destruct Hhd as [|y l' Hxy]; simpl; [done|]. by case_decide.
Qed.

(** X10. The order [getSortedSignerOrder] returns is a fixed point of the
    sort and gives the same hash: sorting it again returns it unchanged,
    and [computeValsetHash] of the sorted list is [computeValsetHash] of
    the input. *)
Theorem sorted_order_is_stable (signers sorted : list ValsetSigner) :
  getSortedSignerOrder signers = Ok sorted →
  getSortedSignerOrder sorted = Ok sorted ∧
  computeValsetHash sorted = computeValsetHash signers.
Proof.
  intros Hsort.
  assert (getSortedSignerOrder sorted = Ok sorted) as Hfix.
  { destruct (all_accepted_or_refused signers) as [Hacc|Hex].
    - rewrite getSortedSignerOrder_accepted in Hsort by done. injection Hsort as <-.
      rewrite getSortedSignerOrder_accepted by (by rewrite sort_Permutation).
      f_equal. apply sort_sorted, sort_Sorted, compare_total.
    - assert (¬ (2 <= length signers)%nat) as Hlen.
      { intros Hlen. destruct (Array_sort_refused signers Hlen Hex) as [e He].
        unfold getSortedSignerOrder in Hsort. congruence. }
      destruct signers as [|x [|y l]]; simpl in Hlen; [..|lia].
      + by injection Hsort as <-.
      + by injection Hsort as <-. }
  split; [done|]. unfold getSortedSignerOrder in Hsort, Hfix.
  unfold computeValsetHash. by rewrite Hsort, Hfix.
Qed.

Lemma sorted_order_is_stable_witness :
  getSortedSignerOrder [Examples.alice; Examples.carol; Examples.bob]
  = Ok [Examples.alice; Examples.carol; Examples.bob] ∧
  computeValsetHash [Examples.alice; Examples.carol; Examples.bob]
  = computeValsetHash [Examples.bob; Examples.alice; Examples.carol].
Proof.
  apply (sorted_order_is_stable [Examples.bob; Examples.alice; Examples.carol]).
  vm_compute. reflexivity.
Defined.

End refused.

(** ** Single bits *)
Section bits.
Import JS Bitmap.

Abbreviation bytes := (Forall (λ b : Z, 0 <= b < 256)).

(** Inside the array [setBit] is the loop body of [createBitmap]. *)
Lemma setBit_step (bitmap : list Z) (i : Z) :
  0 <= i →
  setBit bitmap i = createBitmap_step (8 * Z.of_nat (length bitmap)) bitmap i.
Proof.
  intros Hi. unfold setBit, createBitmap_step, floor_div. cbv zeta.
  destruct (decide (i / 8 < Z.of_nat (length bitmap))) as [Hin|Hout];
    destruct (decide (0 <= i ∧ i < 8 * Z.of_nat (length bitmap))) as [Hr|Hr];
    try done; exfalso; revert Hr; Z.div_mod_to_equations; lia.
Qed.

Lemma setBit_length (bitmap : list Z) (i : Z) :
  length (setBit bitmap i) = length bitmap.
Proof.
  unfold setBit, set. repeat case_decide; try done. by rewrite length_insert.
Qed.

Lemma clearBit_length (bitmap : list Z) (i : Z) :
  length (clearBit bitmap i) = length bitmap.
Proof.
  unfold clearBit, set. repeat case_decide; try done. by rewrite length_insert.
Qed.

Lemma setBit_bit (bitmap : list Z) (i j : Z) :
  0 <= i → 0 <= j →
  Spec.bit (setBit bitmap i) j
  = Spec.bit bitmap j || bool_decide (j = i ∧ i < 8 * Z.of_nat (length bitmap)).
Proof.
  intros Hi Hj. rewrite setBit_step, createBitmap_step_bit by (done || lia).
  f_equal. apply bool_decide_ext. lia.
Qed.

Lemma bit_outside (bitmap : list Z) (j : Z) :
  8 * Z.of_nat (length bitmap) <= j → Spec.bit bitmap j = false.
Proof.
  intros Hout. unfold Spec.bit. rewrite lookup_ge_None_2.
  - apply Z.bits_0.
  - Z.div_mod_to_equations. lia.
Qed.

Lemma clearBit_bit (bitmap : list Z) (i j : Z) :
  0 <= i → 0 <= j →
  Spec.bit (clearBit bitmap i) j = Spec.bit bitmap j && negb (bool_decide (j = i)).
Proof.
  intros Hi Hj. unfold clearBit, floor_div. cbv zeta. rewrite rem_8 by done.
  pose proof (Z.mod_pos_bound i 8 ltac:(lia)) as Hpos.
  pose proof (Z.mod_pos_bound j 8 ltac:(lia)) as Hposj.
  assert (0 <= i / 8) by (apply Z.div_pos; lia).
  assert (0 <= j / 8) by (apply Z.div_pos; lia).
  case_decide as Hin.
  - unfold set. case_decide; [|lia]. unfold Spec.bit.
    destruct (decide (j / 8 = i / 8)) as [Hsame|Hother].
    + rewrite Hsame, list_lookup_insert_eq by lia. simpl.
      unfold ToUint8. change 256 with (2 ^ 8). rewrite Z.mod_pow2_bits_low by lia.
      unfold band, bnot. rewrite Z.land_spec, !ToInt32_testbit by lia.
      rewrite Z.lnot_spec, ToInt32_testbit by lia.
      rewrite shl_1 by lia. rewrite get_lookup by lia. f_equal.
      destruct (decide (j mod 8 = i mod 8)) as [Hbit|Hbit].
      * rewrite Hbit, Z.pow2_bits_true by lia. simpl. symmetry.
        rewrite bool_decide_eq_true_2; [done|]. by apply split_index.
      * rewrite Z.pow2_bits_false by lia. simpl. symmetry.
        rewrite bool_decide_eq_false_2; [done|]. by intros ->.
    + rewrite list_lookup_insert_ne by lia.
      rewrite bool_decide_eq_false_2, andb_true_r; [done|]. by intros ->.
  - destruct (decide (j = i)) as [->|Hne].
    + rewrite bit_outside; [done|]. Z.div_mod_to_equations. lia.
    + by rewrite bool_decide_eq_false_2, andb_true_r.
Qed.

(** X11. Inside the array [setBit] turns on the bit of its index and leaves
    every other bit and the length alone; an index past the last byte
    changes nothing, without an error. *)
Theorem setBit_isBitSet (bitmap : list Z) (i j : Z) :
  0 <= i → 0 <= j →
  length (setBit bitmap i) = length bitmap ∧
  isBitSet (setBit bitmap i) j
  = isBitSet bitmap j || bool_decide (j = i ∧ i < 8 * Z.of_nat (length bitmap)).
Proof.
  intros Hi Hj. split; [apply setBit_length|].
  rewrite !isBitSet_bit by done. by apply setBit_bit.
Qed.

Lemma setBit_isBitSet_witness :
  length (setBit [0; 0] 9) = length [0; 0] ∧
  isBitSet (setBit [0; 0] 9) 9
  = isBitSet [0; 0] 9 || bool_decide (9 = 9 ∧ 9 < 8 * Z.of_nat (length [0; 0])).
Proof. apply (setBit_isBitSet [0; 0] 9 9); lia. Defined.

(** X12. [clearBit] turns off the bit of its index and leaves every other
    bit and the length alone. *)
Theorem clearBit_isBitSet (bitmap : list Z) (i j : Z) :
  0 <= i → 0 <= j →
  length (clearBit bitmap i) = length bitmap ∧
  isBitSet (clearBit bitmap i) j = isBitSet bitmap j && negb (bool_decide (j = i)).
Proof.
  intros Hi Hj. split; [apply clearBit_length|].
  rewrite !isBitSet_bit by done. by apply clearBit_bit.
Qed.

Lemma clearBit_isBitSet_witness :
  length (clearBit [255; 255] 9) = length [255; 255] ∧
  isBitSet (clearBit [255; 255] 9) 10
  = isBitSet [255; 255] 10 && negb (bool_decide (10 = 9)).
Proof. apply (clearBit_isBitSet [255; 255] 9 10); lia. Defined.

(** *** Arrays of bytes are determined by their bits *)

Lemma bitmap_ext (a b : list Z) :
  bytes a → bytes b → length a = length b →
  (∀ j, 0 <= j → Spec.bit a j = Spec.bit b j) → a = b.
Proof.
  intros Ha Hb Hlen Hbits. apply list_eq_same_length with (length a); [done..|].
  intros k x y Hk Hx Hy.
  pose proof (proj1 (Forall_lookup _ _) Ha k x Hx) as Hxr.
  pose proof (proj1 (Forall_lookup _ _) Hb k y Hy) as Hyr.
  simpl in Hxr, Hyr.
  apply Z.bits_inj'. intros n Hn.
  destruct (decide (n < 8)) as [Hlow|Hhigh].
  - pose proof (Hbits (8 * Z.of_nat k + n) ltac:(lia)) as Hbit.
    unfold Spec.bit in Hbit.
    replace ((8 * Z.of_nat k + n) / 8) with (Z.of_nat k) in Hbit
      by (Z.div_mod_to_equations; lia).
    replace ((8 * Z.of_nat k + n) mod 8) with n in Hbit
      by (Z.div_mod_to_equations; lia).
    by rewrite Nat2Z.id, Hx, Hy in Hbit.
  - rewrite <- (Z.mod_small x (2 ^ 8)), <- (Z.mod_small y (2 ^ 8))
      by (change (2 ^ 8) with 256; lia).
    by rewrite !Z.mod_pow2_bits_high by lia.
Qed.

Lemma set_bytes (bitmap : list Z) (k v : Z) : bytes bitmap → bytes (set bitmap k v).
Proof.
  intros Hb. unfold set. case_decide; [|done].
  apply Forall_insert; [done|]. unfold ToUint8. apply Z.mod_pos_bound. lia.
Qed.

Lemma setBit_bytes (bitmap : list Z) (i : Z) : bytes bitmap → bytes (setBit bitmap i).
Proof. intros. unfold setBit. cbv zeta. case_decide; [by apply set_bytes|done]. Qed.

Lemma clearBit_bytes (bitmap : list Z) (i : Z) :
  bytes bitmap → bytes (clearBit bitmap i).
Proof. intros. unfold clearBit. cbv zeta. case_decide; [by apply set_bytes|done]. Qed.

Lemma createBitmap_step_bytes (total : Z) (bitmap : list Z) (idx : Z) :
  bytes bitmap → bytes (createBitmap_step total bitmap idx).
Proof.
  intros. unfold createBitmap_step. case_decide; [by apply set_bytes|done].
Qed.

Lemma createBitmap_fold_bytes (total : Z) (indices bitmap : list Z) :
  bytes bitmap → bytes (fold_left (createBitmap_step total) indices bitmap).
Proof.
  revert bitmap. induction indices as [|idx indices IH]; intros bitmap Hb; [done|].
  simpl. by apply IH, createBitmap_step_bytes.
Qed.

(** X13. Flipping a bit and flipping it back restores the array, byte for
    byte: [setBit] after [clearBit] where the bit was set, [clearBit] after
    [setBit] where it was clear. *)
Theorem flip_and_restore (bitmap : list Z) (i : Z) :
  bytes bitmap → 0 <= i → i < 8 * Z.of_nat (length bitmap) →
  (if isBitSet bitmap i then setBit (clearBit bitmap i) i
   else clearBit (setBit bitmap i) i) = bitmap.
Proof.
  intros Hb Hi Hin. rewrite isBitSet_bit by done.
  destruct (Spec.bit bitmap i) eqn:Hbit.
  - apply bitmap_ext; [by apply setBit_bytes, clearBit_bytes|done| |].
    + by rewrite setBit_length, clearBit_length.
    + intros j Hj. rewrite setBit_bit, clearBit_bit, clearBit_length by done.
      destruct (decide (j = i)) as [->|Hne].
      * rewrite Hbit, (bool_decide_eq_true_2 (i = i)) by done. simpl.
        by rewrite bool_decide_eq_true_2.
      * rewrite (bool_decide_eq_false_2 (j = i)), andb_true_r by done.
        rewrite bool_decide_eq_false_2, orb_false_r; [done|]. by intros [? _].
  - apply bitmap_ext; [by apply clearBit_bytes, setBit_bytes|done| |].
    + by rewrite clearBit_length, setBit_length.
    + intros j Hj. rewrite clearBit_bit, setBit_bit by done.
      destruct (decide (j = i)) as [->|Hne].
      * by rewrite Hbit, (bool_decide_eq_true_2 (i = i)), andb_false_r.
      * rewrite (bool_decide_eq_false_2 (j = i)), andb_true_r by done.
        rewrite bool_decide_eq_false_2, orb_false_r; [done|]. by intros [? _].
Qed.

Lemma flip_and_restore_witness :
  (if isBitSet [5; 130] 9 then setBit (clearBit [5; 130] 9) 9
   else clearBit (setBit [5; 130] 9) 9) = [5; 130].
Proof.
  apply (flip_and_restore [5; 130] 9).
  - repeat constructor; lia.
  - lia.
  - simpl. lia.
Defined.

(** X14. Below zero the three single-bit functions do nothing: [isBitSet]
    answers [false], [setBit] and [clearBit] return the array unchanged. *)
Theorem negative_index_is_inert (bitmap : list Z) (i : Z) :
  i < 0 →
  isBitSet bitmap i = false ∧ setBit bitmap i = bitmap ∧ clearBit bitmap i = bitmap.
Proof.
  intros Hi. assert (i / 8 < 0) as Hneg by (Z.div_mod_to_equations; lia).
  unfold isBitSet, setBit, clearBit, floor_div, set, get. cbv zeta.
  split_and!.
  - case_decide; [done|]. case_decide; [lia|]. apply bool_decide_eq_false_2.
    intros Hne. apply Hne. unfold band. by rewrite (ToInt32_small 0) by lia.
  - repeat case_decide; try done; lia.
  - repeat case_decide; try done; lia.
Qed.

Lemma negative_index_is_inert_witness :
  isBitSet [255] (-1) = false ∧ setBit [255] (-1) = [255]
  ∧ clearBit [255] (-1) = [255].
Proof. apply (negative_index_is_inert [255] (-1)). lia. Defined.

End bits.

(** ** Bitmaps as sets of indices *)
Section index_sets.
Import JS Bitmap.

Abbreviation byte_array := (Forall (λ b : Z, 0 <= b < 256)).

Lemma bit_inside (bitmap : list Z) (j : Z) :
  0 <= j → Spec.bit bitmap j = true → j < 8 * Z.of_nat (length bitmap).
Proof.
  intros Hj Hbit. destruct (decide (j < 8 * Z.of_nat (length bitmap))); [done|].
  rewrite bit_outside in Hbit by lia. done.
Qed.

Lemma elem_of_parseBitmap (bitmap : list Z) (totalValidators i : Z) :
  i ∈ parseBitmap bitmap totalValidators ↔
  0 <= i < totalValidators ∧ isBitSet bitmap i = true.
Proof.
  rewrite parseBitmap_members, elem_of_members. split.
  - intros (Hi & _ & Hbit). by rewrite isBitSet_bit by lia.
  - intros [Hi Hset]. rewrite isBitSet_bit in Hset by lia.
    split_and!; [lia..| |done]. apply bit_inside; [lia|done].
Qed.

(** X15. [parseBitmap] and [isBitSet] agree: the decoder lists, in strictly
    ascending order, exactly the indices below the member count for which
    [isBitSet] answers [true]. *)
Theorem parseBitmap_lists_set_bits (bitmap : list Z) (totalValidators : Z) :
  StronglySorted Z.lt (parseBitmap bitmap totalValidators) ∧
  ∀ i, i ∈ parseBitmap bitmap totalValidators ↔
       0 <= i < totalValidators ∧ isBitSet bitmap i = true.
Proof.
  split.
  - rewrite parseBitmap_members. apply members_ascending.
  - intros i. apply elem_of_parseBitmap.
Qed.

Lemma createBitmap_Ok (indices : list Z) (total : Z) :
  -8 < total →
  createBitmap indices total
  = Ok (fold_left (createBitmap_step total) indices
          (replicate (Z.to_nat ((total + 7) / 8)) 0)).
Proof.
  intros Htotal. unfold createBitmap. cbv zeta. rewrite ceil_div_8.
  unfold new_Uint8Array. case_decide as Hneg; [|done].
  exfalso. revert Hneg. Z.div_mod_to_equations. lia.
Qed.

Lemma createBitmap_fold_none (total : Z) (indices bitmap : list Z) :
  total <= 0 → fold_left (createBitmap_step total) indices bitmap = bitmap.
Proof.
  intros Htotal. revert bitmap.
  induction indices as [|idx indices IH]; intros bitmap; [done|].
  simpl. rewrite IH. unfold createBitmap_step. case_decide; [lia|done].
Qed.

(** X16. A member count that is not positive: from [-8] down the array
    length [createBitmap] computes is negative and the allocation throws;
    above [-8] the length is zero and the empty array is returned. The
    indices play no part in either case. *)
Theorem createBitmap_without_members (validatorIndices : list Z) (totalValidators : Z) :
  totalValidators <= 0 →
  (totalValidators <= -8 →
   createBitmap validatorIndices totalValidators
   = Throw (RangeError "Invalid typed array length")) ∧
  (-8 < totalValidators → createBitmap validatorIndices totalValidators = Ok []).
Proof.
  intros Hcount. split.
  - intros Htotal. unfold createBitmap. cbv zeta. rewrite ceil_div_8.
    unfold new_Uint8Array. case_decide as Hneg; [done|].
    exfalso. revert Hneg. Z.div_mod_to_equations. lia.
  - intros Htotal. rewrite createBitmap_Ok, createBitmap_fold_none by lia.
    replace ((totalValidators + 7) / 8) with 0 by (Z.div_mod_to_equations; lia).
    done.
Qed.

Lemma createBitmap_without_members_witness :
  (-3 <= -8 → createBitmap [0; 5] (-3) = Throw (RangeError "Invalid typed array length")) ∧
  (-8 < -3 → createBitmap [0; 5] (-3) = Ok []).
Proof. apply (createBitmap_without_members [0; 5] (-3)). lia. Defined.

Lemma replicate_bytes (n : nat) : byte_array (replicate n 0).
Proof. apply Forall_replicate. lia. Qed.

(** X17. The bitmap depends only on which indices below the member count
    occur in the list: order, repetitions and indices out of range make no
    difference to the bytes [createBitmap] returns. *)
Theorem createBitmap_set_only (a b : list Z) (totalValidators : Z) :
  (∀ i, 0 <= i < totalValidators → i ∈ a ↔ i ∈ b) →
  createBitmap a totalValidators = createBitmap b totalValidators.
Proof.
  intros Hsame. destruct (decide (totalValidators <= 0)) as [Hneg|Hpos].
  - unfold createBitmap. cbv zeta.
    destruct (new_Uint8Array (ceil_div totalValidators 8)) as [bitmap|e]; [|done].
    simpl. by rewrite !createBitmap_fold_none.
  - rewrite !createBitmap_Ok by lia. f_equal.
    assert (totalValidators
            <= 8 * Z.of_nat (length (replicate (Z.to_nat ((totalValidators + 7) / 8)) 0)))
      as Hlen.
    { rewrite length_replicate. Z.div_mod_to_equations. lia. }
    apply bitmap_ext.
    + apply createBitmap_fold_bytes, replicate_bytes.
    + apply createBitmap_fold_bytes, replicate_bytes.
    + by rewrite !createBitmap_fold_length.
    + intros j Hj. rewrite !createBitmap_fold_bit by done. f_equal.
      apply bool_decide_ext. split; intros [Hin Hr]; (split; [|done]);
        by apply (Hsame j Hr).
Qed.

Lemma createBitmap_set_only_witness :
  createBitmap [3; 1; 3; 99; -2] 8 = createBitmap [1; 3] 8.
Proof.
  apply (createBitmap_set_only [3; 1; 3; 99; -2] [1; 3] 8).
  intros i Hi. rewrite !elem_of_cons, !elem_of_nil. lia.
Defined.

(** X18. Decoding then encoding gives back a bitmap exactly when it has the
    length [createBitmap] chooses and no bit set at or past the member
    count; any other array of bytes comes back changed. *)
Theorem decode_encode_iff (bitmap : list Z) (totalValidators : Z) :
  byte_array bitmap → 0 <= totalValidators →
  createBitmap (parseBitmap bitmap totalValidators) totalValidators = Ok bitmap ↔
  Z.of_nat (length bitmap) = (totalValidators + 7) / 8 ∧
  ∀ j, totalValidators <= j → isBitSet bitmap j = false.
Proof.
  intros Hbytes Htotal.
  destruct (createBitmap_bits (parseBitmap bitmap totalValidators) totalValidators Htotal)
    as (made & Hmade & Hlen & Hbits).
  rewrite Hmade. split.
  - intros [= ->]. split; [done|]. intros j Hj.
    rewrite isBitSet_bit, Hbits by lia. apply bool_decide_eq_false_2. lia.
  - intros [Hsize Hpad]. f_equal. apply bitmap_ext; [|done|lia|].
    + rewrite createBitmap_Ok in Hmade by lia. injection Hmade as <-.
      apply createBitmap_fold_bytes, replicate_bytes.
    + intros j Hj. rewrite Hbits by done.
      destruct (decide (j < totalValidators)) as [Hin|Hout].
      * destruct (Spec.bit bitmap j) eqn:Hbit.
        -- apply bool_decide_eq_true_2. split; [|lia].
           apply elem_of_parseBitmap. by rewrite isBitSet_bit by done.
        -- apply bool_decide_eq_false_2. intros [Hmem _].
           apply elem_of_parseBitmap in Hmem as [_ Hset].
           rewrite isBitSet_bit in Hset by done. congruence.
      * rewrite <- isBitSet_bit, Hpad by lia. apply bool_decide_eq_false_2. lia.
Qed.

Lemma decode_encode_iff_witness :
  createBitmap (parseBitmap [137; 18] 13) 13 = Ok [137; 18] ↔
  Z.of_nat (length [137; 18]) = (13 + 7) / 8 ∧
  ∀ j, 13 <= j → isBitSet [137; 18] j = false.
Proof.
  apply (decode_encode_iff [137; 18] 13).
  - repeat constructor; lia.
  - lia.
Defined.

(** Encoding any list and decoding the result. *)
Lemma round_trip_any_list (validatorIndices : list Z) (totalValidators : Z) :
  0 <= totalValidators →
  ∃ bitmap, createBitmap validatorIndices totalValidators = Ok bitmap ∧
    parseBitmap bitmap totalValidators
    = Spec.sorted (remove_dups
        (filter (λ i, 0 <= i < totalValidators) validatorIndices)).
Proof.
  intros Htotal.
  destruct (createBitmap_bits validatorIndices totalValidators Htotal)
    as (bitmap & Hmade & Hlen & Hbits).
  exists bitmap. split; [done|].
  rewrite parseBitmap_members.
  rewrite <- (filter_all (λ i, 0 <= i < totalValidators)
    (remove_dups (filter (λ i, 0 <= i < totalValidators) validatorIndices))).
  - apply round_trip_sorted.
    + apply NoDup_remove_dups.
    + rewrite Hlen. Z.div_mod_to_equations. lia.
    + intros j Hj. rewrite Hbits by done. apply bool_decide_ext.
      rewrite elem_of_remove_dups, list_elem_of_filter. tauto.
  - apply Forall_forall. intros i.
    rewrite elem_of_remove_dups, list_elem_of_filter. tauto.
Qed.

(** X19. The round trip for any list: encoding then decoding returns the
    indices below the member count once each, in ascending order, so the
    decoder reports as many members as the list has distinct indices in
    range. *)
Theorem round_trip_drops_repeats (validatorIndices : list Z) (totalValidators : Z) :
  0 <= totalValidators →
  ∃ bitmap, createBitmap validatorIndices totalValidators = Ok bitmap ∧
    parseBitmap bitmap totalValidators
    = Spec.sorted (remove_dups
        (filter (λ i, 0 <= i < totalValidators) validatorIndices)).
Proof. apply round_trip_any_list. Qed.

Lemma round_trip_drops_repeats_witness :
  ∃ bitmap, createBitmap [9; 3; 9; 40; 0] 13 = Ok bitmap ∧
    parseBitmap bitmap 13
    = Spec.sorted (remove_dups (filter (λ i, 0 <= i < 13) [9; 3; 9; 40; 0])).
Proof. apply (round_trip_drops_repeats [9; 3; 9; 40; 0] 13). lia. Defined.

End index_sets.

(** ** The proof the relayer builds *)
Section relayer_proof.
Import JS Canonical Bitmap.
Context (Buffer_from_base64 : string → list Z).

Abbreviation index_in := Relayer.signer_index.
Abbreviation signs_as := (λ (sig : Relayer.ValidatorSignature) (s : ValsetSigner),
  bool_decide (operator s = Relayer.operatorAddress sig)).

Lemma findIndex_from_spec {A} (p : A → bool) (arr : list A) (i : Z) :
  (findIndex_from p arr i = -1 ∨
   ∃ k x, findIndex_from p arr i = i + Z.of_nat k ∧ arr !! k = Some x ∧ p x = true) ∧
  (0 <= i → Forall (λ x, p x = false) arr ↔ findIndex_from p arr i = -1).
Proof.
  revert i. induction arr as [|x arr IH]; intros i; simpl.
  - split; [by left|]. intros _. split; [done|constructor].
  - destruct (p x) eqn:Hp.
    + split.
      * right. exists 0%nat, x. split_and!; [lia|done..].
      * intros Hi. split; [|lia]. intros Hall. apply Forall_cons in Hall as [? _].
        congruence.
    + destruct (IH (i + 1)) as [Hfound Hnone]. split.
      * destruct Hfound as [?|(k & y & Hk & Hy & Hpy)]; [by left|right].
        exists (S k), y. split_and!; [lia|done..].
      * intros Hi. rewrite Forall_cons. rewrite Hnone by lia. tauto.
Qed.

Lemma signer_index_range (sorted : list ValsetSigner) (sig : Relayer.ValidatorSignature) :
  index_in sorted sig = -1 ∨
  (0 <= index_in sorted sig < Z.of_nat (length sorted) ∧
   operator <$> sorted !! Z.to_nat (index_in sorted sig)
   = Some (Relayer.operatorAddress sig)).
Proof.
  unfold Relayer.signer_index, Array_findIndex.
  destruct (proj1 (findIndex_from_spec (signs_as sig) sorted 0))
    as [?|(k & s & -> & Hs & Hp)]; [by left|right].
  apply bool_decide_eq_true in Hp. pose proof (lookup_lt_Some _ _ _ Hs).
  rewrite Z.add_0_l, Nat2Z.id, Hs. simpl. split; [lia|by f_equal].
Qed.

Lemma signer_index_known (sorted : list ValsetSigner) (sig : Relayer.ValidatorSignature) :
  0 <= index_in sorted sig ↔ Relayer.operatorAddress sig ∈ operator <$> sorted.
Proof.
  unfold Relayer.signer_index, Array_findIndex.
  pose proof (proj2 (findIndex_from_spec (signs_as sig) sorted 0) ltac:(lia)) as Hnone.
  pose proof (signer_index_range sorted sig) as Hrange.
  unfold Relayer.signer_index, Array_findIndex in Hrange.
  rewrite list_elem_of_fmap. split.
  - intros Hpos. destruct Hrange as [?|[_ Hat]]; [lia|].
    destruct (sorted !! _) as [s|] eqn:Hs; [|done]. injection Hat as Hop.
    exists s. split; [done|]. by eapply list_elem_of_lookup_2.
  - intros (s & Hop & Hin). destruct Hrange as [Hminus|[? _]]; [|lia].
    apply Hnone in Hminus. rewrite Forall_forall in Hminus.
    specialize (Hminus s Hin). apply bool_decide_eq_false in Hminus. done.
Qed.

(** Two signatures land on the same position exactly when they carry the
    same operator. *)
Lemma signer_index_inj (sorted : list ValsetSigner) (a b : Relayer.ValidatorSignature) :
  0 <= index_in sorted a →
  index_in sorted a = index_in sorted b ↔
  Relayer.operatorAddress a = Relayer.operatorAddress b.
Proof.
  intros Ha. split.
  - intros Heq.
    destruct (signer_index_range sorted a) as [?|[_ Hat]]; [lia|].
    destruct (signer_index_range sorted b) as [?|[_ Hbt]]; [lia|].
    rewrite Heq in Hat. congruence.
  - intros Heq. unfold Relayer.signer_index. by rewrite Heq.
Qed.

Lemma proof_loop (sorted : list ValsetSigner) (sigs : list Relayer.ValidatorSignature)
    (acc : list Z * list (list Z)) :
  fold_left (Relayer.proof_step Buffer_from_base64 sorted) sigs acc
  = (acc.1 ++ (index_in sorted <$> filter (λ sig, 0 <= index_in sorted sig) sigs),
     acc.2 ++ (Buffer_from_base64 ∘ Relayer.signature
               <$> filter (λ sig, 0 <= index_in sorted sig) sigs)).
Proof.
  revert acc. induction sigs as [|sig sigs IH]; intros [ixs bs]; simpl.
  - by rewrite !app_nil_r.
  - rewrite IH. unfold Relayer.proof_step at 1 2. cbv zeta. rewrite filter_cons.
    destruct (decide (0 <= index_in sorted sig)); simpl; [|done].
    by rewrite <- !(assoc_L (++)).
Qed.

Lemma remove_dups_length {A} `{EqDecision A} (l : list A) :
  (length (remove_dups l) <= length l)%nat ∧
  (length (remove_dups l) = length l ↔ NoDup l).
Proof.
  induction l as [|x l [IHle IHeq]]; simpl.
  - split; [lia|]. split; [constructor|done].
  - rewrite NoDup_cons. destruct (decide_rel elem_of x l) as [Hin|Hout]; simpl.
    + split; [lia|]. split; [lia|tauto].
    + split; [lia|]. rewrite <- IHeq. split; [intros; split; [done|lia]|lia].
Qed.

Lemma NoDup_fmap_same_kernel {A B C} (f : A → B) (g : A → C) (l : list A) :
  (∀ x y, x ∈ l → y ∈ l → f x = f y ↔ g x = g y) →
  NoDup (f <$> l) ↔ NoDup (g <$> l).
Proof.
  induction l as [|x l IH]; intros Hker; [split; constructor|].
  rewrite !fmap_cons, !NoDup_cons, IH, !list_elem_of_fmap.
  - assert ((∃ y, f x = f y ∧ y ∈ l) ↔ (∃ y, g x = g y ∧ y ∈ l)) as Hex; [|tauto].
    split; intros (y & Heq & Hy); exists y; (split; [|done]);
      apply (Hker x y); (done || by left || by right).
  - intros a b Ha Hb. apply Hker; by right.
Qed.

Lemma proof_indices_in_range (sorted : list ValsetSigner)
    (sigs : list Relayer.ValidatorSignature) :
  Forall (λ i, 0 <= i < Z.of_nat (length sorted))
    (index_in sorted <$> filter (λ sig, 0 <= index_in sorted sig) sigs).
Proof.
  apply Forall_fmap, Forall_forall. intros sig [Hpos _]%list_elem_of_filter. simpl.
  destruct (signer_index_range sorted sig) as [?|[? _]]; lia.
Qed.

(** X20. The proof holds one signature for every collected signature whose
    operator is in the validator set, in the order collected, but one bit
    per operator: the bitmap names as many members as there are signatures
    exactly when no operator signed twice. *)
Theorem proof_signatures_and_bits (sigs : list Relayer.ValidatorSignature)
    (signers sorted : list ValsetSigner) :
  getSortedSignerOrder signers = Ok sorted →
  ∃ proof,
    Relayer.submitToDestination_proof Buffer_from_base64 sigs signers = Ok proof ∧
    Relayer.signatures proof
    = (Buffer_from_base64 ∘ Relayer.signature
       <$> filter (λ sig, Relayer.operatorAddress sig ∈ operator <$> signers) sigs) ∧
    (length (parseBitmap (Relayer.bitmap proof) (Z.of_nat (length signers)))
     <= length (Relayer.signatures proof))%nat ∧
    (length (parseBitmap (Relayer.bitmap proof) (Z.of_nat (length signers)))
     = length (Relayer.signatures proof) ↔
     NoDup (Relayer.operatorAddress
            <$> filter (λ sig, Relayer.operatorAddress sig ∈ operator <$> signers) sigs)).
Proof.
  intros Hsort. unfold Relayer.submitToDestination_proof. rewrite Hsort, bind_Ok.
  cbv zeta. rewrite proof_loop. cbn [fst snd]. rewrite !app_nil_l.
  assert (sorted ≡ₚ signers) as Hperm by (by apply Array_sort_Permutation in Hsort).
  assert (filter (λ sig, 0 <= index_in sorted sig) sigs
          = filter (λ sig, Relayer.operatorAddress sig ∈ operator <$> signers) sigs)
    as Hknown.
  { apply filter_ext_elem. intros sig _. rewrite signer_index_known.
    by rewrite Hperm. }
  pose proof (proof_indices_in_range sorted sigs) as Hrange.
  rewrite Hknown in Hrange |- *. clear Hknown.
  set (known := filter _ sigs) in *.
  destruct (round_trip_any_list (index_in sorted <$> known)
              (Z.of_nat (length sorted)) ltac:(lia)) as (bm & Hbm & Hparse).
  rewrite Hbm, bind_Ok. eexists. split; [done|]. cbn [Relayer.signatures Relayer.bitmap].
  split; [done|].
  rewrite <- (Permutation_length Hperm), Hparse. unfold Spec.sorted.
  rewrite merge_sort_Permutation, (filter_all _ _ Hrange), !length_fmap.
  pose proof (remove_dups_length (index_in sorted <$> known)) as [Hle Heq].
  rewrite length_fmap in Hle, Heq. split; [done|]. rewrite Heq.
  apply NoDup_fmap_same_kernel. intros a b Ha _. apply signer_index_inj.
  apply list_elem_of_filter in Ha as [Ha _].
  apply signer_index_known. by rewrite Hperm.
Qed.

Lemma remove_dups_NoDup {A} `{EqDecision A} (l : list A) :
  NoDup l → remove_dups l = l.
Proof.
  induction 1 as [|x l Hx Hl IH]; simpl; [done|].
  destruct (decide_rel elem_of x l); [done|]. by rewrite IH.
Qed.

Lemma StronglySorted_lt_NoDup (l : list Z) : StronglySorted Z.lt l → NoDup l.
Proof.
  induction 1 as [|x l Hl IH Hx]; constructor; [|done].
  intros Hin. rewrite Forall_forall in Hx. specialize (Hx x Hin). lia.
Qed.

(** X21. The signatures stay in the order they were collected; the bitmap
    names the members in ascending sorted position. The k-th signature
    belongs to the k-th member the bitmap names exactly when the signatures
    were collected in strictly ascending position. *)
Theorem proof_alignment (sigs : list Relayer.ValidatorSignature)
    (signers sorted : list ValsetSigner) :
  getSortedSignerOrder signers = Ok sorted →
  ∃ proof,
    Relayer.submitToDestination_proof Buffer_from_base64 sigs signers = Ok proof ∧
    Relayer.signatures proof
    = (Buffer_from_base64 ∘ Relayer.signature
       <$> filter (λ sig, 0 <= index_in sorted sig) sigs) ∧
    (parseBitmap (Relayer.bitmap proof) (Z.of_nat (length sorted))
     = (index_in sorted <$> filter (λ sig, 0 <= index_in sorted sig) sigs) ↔
     StronglySorted Z.lt
       (index_in sorted <$> filter (λ sig, 0 <= index_in sorted sig) sigs)).
Proof.
  intros Hsort. unfold Relayer.submitToDestination_proof. rewrite Hsort, bind_Ok.
  cbv zeta. rewrite proof_loop. cbn [fst snd]. rewrite !app_nil_l.
  pose proof (proof_indices_in_range sorted sigs) as Hrange.
  set (known := filter _ sigs) in *.
  destruct (round_trip_any_list (index_in sorted <$> known)
              (Z.of_nat (length sorted)) ltac:(lia)) as (bm & Hbm & Hparse).
  rewrite Hbm, bind_Ok. eexists. split; [done|]. cbn [Relayer.signatures Relayer.bitmap].
  split; [done|]. rewrite Hparse, (filter_all _ _ Hrange). split.
  - intros <-. rewrite <- (filter_all _ _ Hrange), <- Hparse, parseBitmap_members.
    apply members_ascending.
  - intros Hasc. rewrite remove_dups_NoDup by (by apply StronglySorted_lt_NoDup).
    unfold Spec.sorted. apply (Sorted_unique Z.le).
    + apply Sorted_merge_sort. apply _.
    + apply StronglySorted_Sorted, (StronglySorted_weaken Z.lt); [lia|done].
    + apply merge_sort_Permutation.
Qed.

End relayer_proof.

Lemma proof_signatures_and_bits_witness :
  ∃ proof,
    Relayer.submitToDestination_proof Examples.toy_decode Examples.double_signed
      [Examples.bob; Examples.alice; Examples.carol] = JS.Ok proof ∧
    Relayer.signatures proof
    = (Examples.toy_decode ∘ Relayer.signature
       <$> filter (λ sig, Relayer.operatorAddress sig
                          ∈ Canonical.operator <$> [Examples.bob; Examples.alice; Examples.carol])
                  Examples.double_signed) ∧
    (length (Bitmap.parseBitmap (Relayer.bitmap proof)
               (Z.of_nat (length [Examples.bob; Examples.alice; Examples.carol])))
     <= length (Relayer.signatures proof))%nat ∧
    (length (Bitmap.parseBitmap (Relayer.bitmap proof)
               (Z.of_nat (length [Examples.bob; Examples.alice; Examples.carol])))
     = length (Relayer.signatures proof) ↔
     NoDup (Relayer.operatorAddress
            <$> filter (λ sig, Relayer.operatorAddress sig
                               ∈ Canonical.operator <$> [Examples.bob; Examples.alice; Examples.carol])
                       Examples.double_signed)).
Proof.
  apply (proof_signatures_and_bits Examples.toy_decode Examples.double_signed
           [Examples.bob; Examples.alice; Examples.carol]
           [Examples.alice; Examples.carol; Examples.bob]).
  vm_compute. reflexivity.
Defined.

Lemma proof_alignment_witness :
  ∃ proof,
    Relayer.submitToDestination_proof Examples.toy_decode Examples.double_signed
      [Examples.bob; Examples.alice; Examples.carol] = JS.Ok proof ∧
    Relayer.signatures proof
    = (Examples.toy_decode ∘ Relayer.signature
       <$> filter (λ sig, 0 <= Relayer.signer_index
                                 [Examples.alice; Examples.carol; Examples.bob] sig)
                  Examples.double_signed) ∧
    (Bitmap.parseBitmap (Relayer.bitmap proof)
       (Z.of_nat (length [Examples.alice; Examples.carol; Examples.bob]))
     = (Relayer.signer_index [Examples.alice; Examples.carol; Examples.bob]
        <$> filter (λ sig, 0 <= Relayer.signer_index
                                  [Examples.alice; Examples.carol; Examples.bob] sig)
                   Examples.double_signed) ↔
     StronglySorted Z.lt
       (Relayer.signer_index [Examples.alice; Examples.carol; Examples.bob]
        <$> filter (λ sig, 0 <= Relayer.signer_index
                                  [Examples.alice; Examples.carol; Examples.bob] sig)
                   Examples.double_signed)).
Proof.
  apply (proof_alignment Examples.toy_decode Examples.double_signed
           [Examples.bob; Examples.alice; Examples.carol]
           [Examples.alice; Examples.carol; Examples.bob]).
  vm_compute. reflexivity.
Defined.

(** ** The signing daemon *)
Section hexadecimal.
Import Go.

Abbreviation hex_digits := (Forall (λ c : ascii, is_Some (fromHexChar c))).

Lemma fromHexChar_hex_digit (n : Z) :
  0 <= n < 16 → fromHexChar (hex_digit n) = Some n.
Proof.
  intros Hn.
  assert (n = 0 ∨ n = 1 ∨ n = 2 ∨ n = 3 ∨ n = 4 ∨ n = 5 ∨ n = 6 ∨ n = 7 ∨
          n = 8 ∨ n = 9 ∨ n = 10 ∨ n = 11 ∨ n = 12 ∨ n = 13 ∨ n = 14 ∨ n = 15)
    as Hcases by lia.
  repeat (destruct Hcases as [->|Hcases]; [vm_compute; reflexivity|]).
  subst n. vm_compute. reflexivity.
Qed.

Lemma nibbles (v : Z) :
  0 <= v < 256 →
  0 <= Z.shiftr v 4 < 16 ∧ 0 <= Z.land v 15 < 16 ∧
  Z.shiftr v 4 * 16 + Z.land v 15 = v.
Proof.
  intros Hv. rewrite Z.shiftr_div_pow2 by lia.
  change 15 with (Z.ones 4). rewrite Z.land_ones by lia.
  change (2 ^ 4) with 16. Z.div_mod_to_equations. lia.
Qed.

(** Decoding what [hex.Encode] wrote gives the bytes back. *)
Lemma hex_round_trip (src : list Z) :
  Forall (λ v, 0 <= v < 256) src → hex_Decode (hex_Encode src) = Val src.
Proof.
  induction 1 as [|v src Hv _ IH]; [done|].
  destruct (nibbles v Hv) as (Hhi & Hlo & Hsum).
  cbn [hex_Encode hex_Decode].
  by rewrite !fromHexChar_hex_digit, IH, Hsum by done.
Qed.

(** [hex.Decode] succeeds on an even number of hexadecimal digits and on
    nothing else, and returns one byte for every two of them. *)
Lemma hex_Decode_digits (src : list ascii) :
  ((∃ bytes, hex_Decode src = Val bytes) ↔ Nat.Even (length src) ∧ hex_digits src) ∧
  (∀ bytes, hex_Decode src = Val bytes → length src = (2 * length bytes)%nat).
Proof.
  assert (∀ src,
    (((∃ bytes, hex_Decode src = Val bytes) ↔ Nat.Even (length src) ∧ hex_digits src) ∧
     (∀ bytes, hex_Decode src = Val bytes → length src = (2 * length bytes)%nat)) ∧
    ∀ c,
    (((∃ bytes, hex_Decode (c :: src) = Val bytes) ↔
      Nat.Even (length (c :: src)) ∧ hex_digits (c :: src)) ∧
     (∀ bytes, hex_Decode (c :: src) = Val bytes →
               length (c :: src) = (2 * length bytes)%nat))) as Hboth;
    [|apply Hboth].
  clear src. intros src. induction src as [|q src [IH0 IH1]].
  - split.
    + split.
      * split; [intros _; split; [by exists 0%nat|constructor]|by eexists].
      * by intros bytes [= <-].
    + intros c. cbn [hex_Decode]. split.
      * split.
        -- intros [bytes Hb]. by destruct (fromHexChar c).
        -- intros [[k Hk] _]. simpl in Hk. lia.
      * intros bytes Hb. by destruct (fromHexChar c).
  - split; [apply IH1|]. intros p. destruct IH0 as [IHiff IHlen].
    cbn [hex_Decode]. split.
    + split.
      * intros [bytes Hb].
        destruct (fromHexChar p) as [a|] eqn:Hp; [|done].
        destruct (fromHexChar q) as [b|] eqn:Hq; [|done].
        destruct (hex_Decode src) as [rest|e] eqn:Hrest; [|done].
        destruct (proj1 IHiff ltac:(by eexists)) as [[k Hk] Hdigits].
        split.
        -- exists (S k). simpl. lia.
        -- repeat constructor; [by rewrite Hp|by rewrite Hq|done].
      * intros [[k Hk] Hdigits].
        apply Forall_cons in Hdigits as [[a Hp] Hdigits].
        apply Forall_cons in Hdigits as [[b Hq] Hdigits].
        rewrite Hp, Hq.
        destruct (proj2 IHiff) as [rest ->]; [|by eexists].
        split; [|done]. exists (k - 1)%nat. simpl in Hk. lia.
    + intros bytes Hb.
      destruct (fromHexChar p) as [a|] eqn:Hp; [|done].
      destruct (fromHexChar q) as [b|] eqn:Hq; [|done].
      destruct (hex_Decode src) as [rest|e] eqn:Hrest; [|done].
      injection Hb as <-. simpl. rewrite (IHlen rest eq_refl). lia.
Qed.

Lemma length_list_ascii_of_string (s : string) :
  length (list_ascii_of_string s) = String.length s.
Proof. induction s as [|c s IH]; simpl; [done|]. by rewrite IH. Qed.

End hexadecimal.

Section daemon.
Import Go Keys Daemon.
Context {PrivateKey PublicKey : Type}.
Context (crypto_ToECDSA : list Z → result PrivateKey).
Context (crypto_Sign : list Z → PrivateKey → result (list Z)).
Context (base64_EncodeToString : list Z → string).
Context (crypto_FromECDSA : PrivateKey → list Z).
Context (PublicKey_of : PrivateKey → PublicKey).
Context (crypto_CompressPubkey : PublicKey → list Z).

Lemma GetPrivateKey_Val (ks : KeyStore) (operatorAddr : string) (key : PrivateKey) :
  GetPrivateKey crypto_ToECDSA ks operatorAddr = Val key ↔
  ∃ privateKeyHex privateKeyBytes,
    Keys ks !! operatorAddr = Some privateKeyHex ∧
    hex_DecodeString privateKeyHex = Val privateKeyBytes ∧
    crypto_ToECDSA privateKeyBytes = Val key.
Proof.
  unfold GetPrivateKey. split.
  - intros Hget. destruct (Keys ks !! operatorAddr) as [privateKeyHex|]; [|done].
    destruct (hex_DecodeString privateKeyHex) as [privateKeyBytes|] eqn:Hhex; [|done].
    destruct (crypto_ToECDSA privateKeyBytes) as [k|] eqn:Hkey; [|done].
    injection Hget as ->. by exists privateKeyHex, privateKeyBytes.
  - intros (privateKeyHex & privateKeyBytes & -> & -> & ->). done.
Qed.

(** X22. A reply with a signature is given only to a digest written as
    exactly 64 hexadecimal digits, with no prefix, and for an operator that
    has an entry in the key store. *)
Theorem signature_needs_64_hex_digits (s : Server) (r : Request)
    (response : SignResponse) (log : list string) :
  handleSign crypto_ToECDSA crypto_Sign base64_EncodeToString s r
  = (Json 200 response, log) →
  ∃ req, Body r = Some req ∧
    String.length (DigestHex req) = 64%nat ∧
    Forall (λ c, is_Some (fromHexChar c)) (list_ascii_of_string (DigestHex req)) ∧
    is_Some (Keys (keyStore s) !! OperatorBech32 req).
Proof.
  unfold handleSign, sendErrorResponse. intros Hreply.
  case_decide; [done|].
  destruct (Body r) as [req|]; [|done]. exists req. split; [done|].
  case_decide; [done|]. case_decide; [done|].
  destruct (hex_DecodeString (DigestHex req)) as [digest|e] eqn:Hhex; [|done].
  case_decide as Hlen; [done|].
  destruct (GetPrivateKey _ _ _) as [key|e] eqn:Hkey; [|done].
  unfold hex_DecodeString in Hhex.
  destruct (hex_Decode_digits (list_ascii_of_string (DigestHex req))) as [Hiff Hsize].
  split_and!.
  - rewrite <- length_list_ascii_of_string, (Hsize digest Hhex), Hlen. done.
  - apply Hiff. by eexists.
  - apply GetPrivateKey_Val in Hkey as (privateKeyHex & _ & -> & _). by eexists.
Qed.

(** X23. A reply with status 500 has one cause: [crypto.Sign] failed on a
    digest of 32 bytes. The length check inside [SignDigest] never decides a
    reply, and the message carries the prefix of [SignDigest] after the
    prefix of the handler. *)
Theorem status_500_comes_from_crypto_Sign (s : Server) (r : Request)
    (response : SignResponse) (log : list string) :
  handleSign crypto_ToECDSA crypto_Sign base64_EncodeToString s r
  = (Json 500 response, log) →
  ∃ req digest key e,
    Body r = Some req ∧
    hex_DecodeString (DigestHex req) = Val digest ∧ length digest = 32%nat ∧
    GetPrivateKey crypto_ToECDSA (keyStore s) (OperatorBech32 req) = Val key ∧
    crypto_Sign digest key = Err e ∧
    Error response = "Failed to sign digest: failed to sign digest: " +:+ e.
Proof.
  unfold handleSign, sendErrorResponse. intros Hreply.
  case_decide; [done|].
  destruct (Body r) as [req|]; [|done].
  case_decide; [done|]. case_decide; [done|].
  destruct (hex_DecodeString (DigestHex req)) as [digest|e] eqn:Hhex; [|done].
  case_decide as Hlen; [done|].
  destruct (GetPrivateKey _ _ _) as [key|e] eqn:Hkey; [|done].
  unfold SignDigest in Hreply. case_decide; [done|].
  destruct (crypto_Sign digest key) as [signature|e] eqn:Hsign; [done|].
  injection Hreply as <- _. by exists req, digest, key, e.
Qed.

(** X24. [AddKey] checks the hexadecimal form and nothing else. On a string
    that does not decode it returns an error and leaves the store as it
    was. Otherwise the operator's entry is replaced, [GetPrivateKey] for it
    hands the decoded bytes to [crypto.ToECDSA], whose refusal surfaces only
    then, and every other operator is answered as before. *)
Theorem AddKey_then_GetPrivateKey (ks : KeyStore) (operatorAddr privateKeyHex : string) :
  match hex_DecodeString privateKeyHex with
  | Err e =>
      AddKey ks operatorAddr privateKeyHex
      = (ks, Some ("invalid private key hex: " +:+ e))
  | Val privateKeyBytes =>
      ∃ ks', AddKey ks operatorAddr privateKeyHex = (ks', None) ∧
        GetPrivateKey crypto_ToECDSA ks' operatorAddr
        = match crypto_ToECDSA privateKeyBytes with
          | Err e => Err ("failed to parse private key: " +:+ e)
          | Val key => Val key
          end ∧
        ∀ other, other ≠ operatorAddr →
          GetPrivateKey crypto_ToECDSA ks' other = GetPrivateKey crypto_ToECDSA ks other
  end.
Proof.
  unfold AddKey. destruct (hex_DecodeString privateKeyHex) as [bytes|e] eqn:Hhex; [|done].
  eexists. split; [done|]. unfold GetPrivateKey. cbn [Keys]. split.
  - by rewrite lookup_insert_eq, Hhex.
  - intros other Hother. by rewrite lookup_insert_ne.
Qed.

(** X25. A key written with [PrivateKeyToHex] and stored with [AddKey] is
    the key [GetPrivateKey] returns, provided [crypto.ToECDSA] inverts
    [crypto.FromECDSA] on it. *)
Theorem stored_key_round_trip (ks : KeyStore) (operatorAddr : string)
    (privateKey : PrivateKey) :
  Forall (λ v, 0 <= v < 256) (crypto_FromECDSA privateKey) →
  crypto_ToECDSA (crypto_FromECDSA privateKey) = Val privateKey →
  ∃ ks',
    AddKey ks operatorAddr (PrivateKeyToHex crypto_FromECDSA privateKey) = (ks', None) ∧
    GetPrivateKey crypto_ToECDSA ks' operatorAddr = Val privateKey.
Proof.
  intros Hbytes Hinv. unfold AddKey, GetPrivateKey, PrivateKeyToHex.
  unfold hex_EncodeToString, hex_DecodeString.
  rewrite list_ascii_of_string_of_list_ascii, hex_round_trip by done.
  eexists. split; [done|]. cbn [Keys]. rewrite lookup_insert_eq.
  by rewrite list_ascii_of_string_of_list_ascii, hex_round_trip, Hinv by done.
Qed.

(** X26. [handlePubKeys] lists exactly the operators whose key
    [GetPrivateKey] can load, each with its compressed public key in
    hexadecimal; an operator whose stored key does not load is left out
    without an error. *)
Theorem handlePubKeys_lists_loadable_keys (s : Server) :
  ∃ pubKeys,
    handlePubKeys crypto_ToECDSA PublicKey_of crypto_CompressPubkey s "GET"
    = PubKeysJson pubKeys ∧
    ∀ operatorAddr,
      pubKeys !! operatorAddr
      = match GetPrivateKey crypto_ToECDSA (keyStore s) operatorAddr with
        | Err _ => None
        | Val privateKey =>
            Some (hex_EncodeToString
                    (PublicKeyToBytes crypto_CompressPubkey (PublicKey_of privateKey)))
        end.
Proof.
  unfold handlePubKeys. case_decide; [done|]. eexists. split; [done|].
  intros operatorAddr.
  transitivity
    (match Keys (keyStore s) !! operatorAddr with
     | None => None
     | Some _ =>
         match GetPrivateKey crypto_ToECDSA (keyStore s) operatorAddr with
         | Err _ => None
         | Val privateKey =>
             Some (hex_EncodeToString
                     (PublicKeyToBytes crypto_CompressPubkey (PublicKey_of privateKey)))
         end
     end).
  2:{ unfold GetPrivateKey. by destruct (Keys (keyStore s) !! operatorAddr). }
  revert operatorAddr.
  apply (map_fold_weak_ind (λ pubKeys (walked : gmap string string),
    ∀ operatorAddr,
      pubKeys !! operatorAddr
      = match walked !! operatorAddr with
        | None => None
        | Some _ =>
            match GetPrivateKey crypto_ToECDSA (keyStore s) operatorAddr with
            | Err _ => None
            | Val privateKey =>
                Some (hex_EncodeToString
                        (PublicKeyToBytes crypto_CompressPubkey (PublicKey_of privateKey)))
            end
        end)).
  - intros operatorAddr. by rewrite !lookup_empty.
  - intros i x m pubKeys Hfresh IH operatorAddr. unfold handlePubKeys_step.
    destruct (decide (operatorAddr = i)) as [->|Hne].
    + rewrite (lookup_insert_eq m).
      destruct (GetPrivateKey crypto_ToECDSA (keyStore s) i) as [key|e].
      * by rewrite lookup_insert_eq.
      * by rewrite IH, Hfresh.
    + rewrite (lookup_insert_ne m) by done.
      destruct (GetPrivateKey crypto_ToECDSA (keyStore s) i) as [key|e].
      * by rewrite lookup_insert_ne.
      * done.
Qed.

End daemon.

Lemma signature_needs_64_hex_digits_witness :
  ∃ req, Daemon.Body Examples.full_request = Some req ∧
    String.length (Daemon.DigestHex req) = 64%nat ∧
    Forall (λ c, is_Some (Go.fromHexChar c))
           (list_ascii_of_string (Daemon.DigestHex req)) ∧
    is_Some (Keys.Keys (Daemon.keyStore Examples.toy_server)
             !! Daemon.OperatorBech32 req).
Proof.
  apply (signature_needs_64_hex_digits Examples.toy_ToECDSA Examples.toy_Sign
           Examples.toy_base64 Examples.toy_server Examples.full_request
           {| Daemon.Signature := "34"; Daemon.Error := EmptyString |}
           ["Signed digest for operator orgvaloper1abc"]).
  vm_compute. reflexivity.
Defined.

Lemma status_500_comes_from_crypto_Sign_witness :
  ∃ req digest key e,
    Daemon.Body Examples.full_request = Some req ∧
    Go.hex_DecodeString (Daemon.DigestHex req) = Go.Val digest ∧
    length digest = 32%nat ∧
    Keys.GetPrivateKey Examples.toy_ToECDSA (Daemon.keyStore Examples.toy_server)
      (Daemon.OperatorBech32 req) = Go.Val key ∧
    Examples.failing_Sign digest key = Go.Err e ∧
    Daemon.Error
      {| Daemon.Signature := EmptyString;
         Daemon.Error :=
           "Failed to sign digest: failed to sign digest: invalid private key" |}
    = "Failed to sign digest: failed to sign digest: " +:+ e.
Proof.
  apply (status_500_comes_from_crypto_Sign Examples.toy_ToECDSA Examples.failing_Sign
           Examples.toy_base64 Examples.toy_server Examples.full_request
           {| Daemon.Signature := EmptyString;
              Daemon.Error :=
                "Failed to sign digest: failed to sign digest: invalid private key" |}
           ["Error: Failed to sign digest: failed to sign digest: invalid private key"]).
  vm_compute. reflexivity.
Defined.

Lemma stored_key_round_trip_witness :
  ∃ ks',
    Keys.AddKey (Daemon.keyStore Examples.toy_server) "orgvaloper1new"
      (Keys.PrivateKeyToHex Examples.toy_FromECDSA [10; 11; 255]) = (ks', None) ∧
    Keys.GetPrivateKey Examples.toy_ToECDSA ks' "orgvaloper1new" = Go.Val [10; 11; 255].
Proof.
  apply (stored_key_round_trip Examples.toy_ToECDSA Examples.toy_FromECDSA
           (Daemon.keyStore Examples.toy_server) "orgvaloper1new" [10; 11; 255]).
  - repeat constructor; lia.
  - reflexivity.
Defined.

(** The store of [Examples.damaged_server]: the entry that is no
    hexadecimal string is not listed, and [/sign] answers that its key was
    not found. *)
Example damaged_key_is_hidden :
  Daemon.handlePubKeys Examples.toy_ToECDSA Examples.toy_PublicKey_of
    Examples.toy_CompressPubkey Examples.damaged_server "GET"
  = Daemon.PubKeysJson {["orgvaloper1abc" := "0a0b"]} ∧
  (Daemon.handleSign Examples.toy_ToECDSA Examples.toy_Sign Examples.toy_base64
     Examples.damaged_server
     {| Daemon.Method := "POST";
        Daemon.Body := Some {| Daemon.OperatorBech32 := "orgvaloper1xyz";
                               Daemon.DigestHex :=
    "000102030405060708090a0b0c0d0e0f101112131415161718191a1b1c1d1e1f" |} |}).1
  = Daemon.Json 404 {| Daemon.Signature := EmptyString;
                       Daemon.Error := "Private key not found for operator: orgvaloper1xyz" |}.
Proof. split; vm_compute; reflexivity. Qed.

(** ** Numbers that are no integers *)
Section not_integers.
Import JS Canonical.


(** The nonce [parseInt] makes of a text that is no number. *)
Example computeMessageDigest_nonce_NaN :
  computeMessageDigest
    {| originChainId := "orgchain"; destChainId := "dstchain";
       nonce := NotInt "NaN"; senderModule := "hyperlane";
       recipientModule := "demo"; body := []; valsetId := Int 2 |}
  = Throw (RangeError
      "The number NaN cannot be converted to a BigInt because it is not an integer").
Proof. vm_compute. reflexivity. Qed.

End not_integers.
